(** * reggie.core.params: parameters, containers and their owners

    A shallow embedding of [reggie/core/params.py].  Python objects live in
    a store indexed by identity; numpy arrays are store objects too, so that
    the aliasing between a leaf's [value], the views returned by
    [__getitem__] and the copies made by [__deepcopy__] is the one of the
    program.  Floating-point numbers are IEEE 754 values ([spec_float]), of
    which only the comparisons are used. *)

From stdpp Require Import gmap strings list pretty.
From Stdlib Require Import ZArith SpecFloat Lia.

(** ** Floating-point values and the numpy primitives the module uses *)

Module Np.

Abbreviation float := spec_float.

Definition inf : float := S754_infinity false.
Definition ninf : float := S754_infinity true.
Definition nan : float := S754_nan.

(** The double nearest to an integer (exact for the small ones used in
    the examples). *)
Definition of_Z (z : Z) : float := binary_normalize 53 1024 z 0 false.

Definition isnan (x : float) : bool :=
  match x with S754_nan => true | _ => false end.

(** [a < b], [a > b], [a <= b], [a >= b] on doubles: false as soon as an
    operand is NaN. *)
Definition lt (a b : float) : bool := SFltb a b.
Definition gt (a b : float) : bool := SFltb b a.
Definition le (a b : float) : bool := SFleb a b.
Definition ge (a b : float) : bool := SFleb b a.

(** [a == b] on doubles: the two zeros are equal, NaN equals nothing. *)
Definition eq (a b : float) : bool := SFeqb a b.


(** The maximum and the minimum that [np.clip] and the reductions
    [np.max] and [np.min] compute, [a > b ? a : b] and [a < b ? a : b]
    with a NaN first operand kept: the first operand when it is NaN or
    strictly wins the comparison, the second one otherwise, so that on a
    tie (the zeros of opposite sign included) the result is the second
    operand, and a NaN second operand is the result as well. *)
Definition maximum (a b : float) : float :=
  if gt a b || isnan a then a else b.
Definition minimum (a b : float) : float :=
  if lt a b || isnan a then a else b.

(** Broadcasting of two one-dimensional operands: equal lengths, or one
    of them of length one; [None] when numpy refuses the shapes. *)
Definition broadcast {A B C : Type} (f : A → B → C)
    (xs : list A) (ys : list B) : option (list C) :=
  if decide (length xs = length ys) then Some (zip_with f xs ys)
  else match xs, ys with
       | [x], _ => Some (map (f x) ys)
       | _, [y] => Some (map (λ x, f x y) xs)
       | _, _ => None
       end.

(** [np.any] of a boolean vector. *)
Definition any (bs : list bool) : bool := existsb id bs.

(** [dst.flat[:] = src]: the destination is filled in order from the
    source, which is cycled when it is shorter and cut when it is longer;
    an empty source writes nothing. *)
Definition flat_assign {A : Type} (dst src : list A) : list A :=
  match src with
  | [] => dst
  | s0 :: _ => imap (λ i _, default s0 (src !! (i mod length src))) dst
  end.

(** An array: its shape and its elements in row-major order. *)
Record ndarray := Ndarray { shape : list nat; data : list float }.

(** [np.array(x, ndmin=n)]: ones are prepended to the shape. *)
Definition atleast (n : nat) (a : ndarray) : ndarray :=
  Ndarray (replicate (n - length (shape a)) 1 ++ shape a) (data a).

End Np.

Abbreviation float := Np.float.
Abbreviation ndarray := Np.ndarray.

(** ** Exceptions *)

Inductive exn :=
| ValueError (msg : string)
| RuntimeError (msg : string)
| KeyError
| IndexError
| TypeError.

(** Messages of the module. *)
Definition msg_outside_bounds := "value lies outside the parameter's bounds".
Definition msg_outside_domain :=
  "prior support lies outside of the parameter's domain".
Definition msg_clipping := "clipping parameter value outside prior support".
Definition msg_several :=
  "priors cannot be set for more than one parameter at a time".
Definition msg_number := "incorrect number of parameters".
Definition msg_block := "invalid block assignment".
Definition msg_broadcast := "operands could not be broadcast together".
Definition msg_duplicate_key (k : string) := "duplicate key: " +:+ k.
Definition msg_unknown_key (k : string) := "unknown key: " +:+ k.
Definition msg_registered (n : string) :=
  "parameter '" +:+ n +:+ "' has already been registered".
Definition msg_unknown_type := "unknown type passed to _register".
Definition msg_shape (n shape : string) :=
  "parameter '" +:+ n +:+ "' does not have shape (" +:+ shape +:+ ")".
Definition msg_recursion := "maximum recursion depth exceeded".
Definition msg_must_be (n ty : string) :=
  "'" +:+ n +:+ "' must be of type " +:+ ty.

(** ** The registries of [reggie.core.domains] and [reggie.core.priors]

    Both modules are imported by [params.py] and are not part of it: the
    tables [BOUNDS], [TRANSFORMS] and [PRIORS] are taken as parameters.  A
    domain has one box [(lo, hi)]; a prior exposes its support [bounds],
    one row per component or a single row. *)

(** Modelled from the spec: a transform is a pair of mutually inverse maps
    between the natural and the transformed space with a component-wise
    derivative; it acts on a vector one component at a time. *)
Record Transform := {
  get_transform : float → float;
  get_inverse : float → float;
  get_gradfactor : float → float
}.

Class Registries := {
  Domain : Type;
  Prior : Type;
  PriorArgs : Type;
  BOUNDS : Domain → option (float * float);
  TRANSFORMS : Domain → option Transform;
  PRIORS : string → option (PriorArgs → exn + Prior);
  prior_bounds : Prior → list (float * float)
}.

(** ** Objects and the store *)

Definition loc := nat.

(** What an attribute of an owner can hold: an immutable scalar or a
    reference to a store object. *)
Inductive pyval :=
| PyNone
| PyInt (z : Z)
| PyStr (s : string)
| PyRef (l : loc).

Section Objects.
Context `{Registries}.

(** A leaf, the class [Parameter] ([Parameter] and [Parameters] are
    reserved words here, hence the primes).  [value] is a reference to its
    array; [bounds] holds the rows of [np.array(self.bounds, ndmin=2)]. *)
Record Parameter' := {
  value : loc;
  prior : option Prior;
  block : Z;
  domain : Domain;
  transform : Transform;
  bounds : list (float * float)
}.

(** A container, the class [Parameters]: the owner it reports to
    ([__obj]) and its ordered dictionary ([__params]). *)
Record Parameters' := {
  obj : loc;
  params : list (string * loc)
}.

(** An owner, the class [Parameterized]: its container ([params]) and the
    rest of its [__dict__]. *)
Record Parameterized := {
  self_params : loc;
  attrs : list (string * pyval)
}.

Inductive object :=
| ONdarray (a : ndarray)
| OParameter (p : Parameter')
| OParameters (c : Parameters')
| OParameterized (o : Parameterized).

(** The store, the calls of the mutation hook [_update] (each with the
    owner it was called on and the objects it could see) and the warnings
    issued so far. *)
Record heap := {
  objs : gmap loc object;
  next_id : loc;
  updates : list (loc * gmap loc object);
  warned : list string
}.

Definition empty_heap : heap :=
  {| objs := ∅; next_id := 0; updates := []; warned := [] |}.

(** ** Computations: a state that survives an exception *)

Inductive outcome (A : Type) :=
| Return (a : A)
| Raise (e : exn).
#[global] Arguments Return {A} a.
#[global] Arguments Raise {A} e.

Definition py (A : Type) : Type := heap → outcome A * heap.

Definition ret {A} (a : A) : py A := λ h, (Return a, h).
Definition raise {A} (e : exn) : py A := λ h, (Raise e, h).
Definition bind {A B} (c : py A) (k : A → py B) : py B :=
  λ h, match c h with
       | (Return a, h') => k a h'
       | (Raise e, h') => (Raise e, h')
       end.

End Objects.

Notation "'do' x <- c ; k" := (bind c (λ x, k))
  (at level 10, x name, c at level 100, k at level 200,
   format "'[v' 'do'  x  <-  c ; '/' k ']'").
Notation "'do' ' p <- c ; k" := (bind c (λ x, match x with p => k end))
  (at level 10, p pattern, c at level 100, k at level 200,
   format "'[v' 'do'  ' p  <-  c ; '/' k ']'").
Notation "c ;; k" := (bind c (λ _, k))
  (at level 100, k at level 200, right associativity).

Section Program.
Context `{Registries}.

(** *** Store primitives *)

Definition lift {A} (r : exn + A) : py A :=
  match r with inl e => raise e | inr a => ret a end.

Definition lookup_obj (l : loc) : py object :=
  λ h, match objs h !! l with
       | Some o => (Return o, h)
       | None => (Raise TypeError, h)
       end.

Definition store (l : loc) (o : object) : py unit :=
  λ h, (Return (), {| objs := <[l := o]> (objs h); next_id := next_id h;
                      updates := updates h; warned := warned h |}).

(** [type(self).__new__(type(self))]: a new identity, filled in later. *)
Definition new_id : py loc :=
  λ h, (Return (next_id h),
        {| objs := objs h; next_id := S (next_id h);
           updates := updates h; warned := warned h |}).

Definition alloc (o : object) : py loc :=
  do l <- new_id; store l o;; ret l.

Definition warn (msg : string) : py unit :=
  λ h, (Return (), {| objs := objs h; next_id := next_id h;
                      updates := updates h; warned := warned h ++ [msg] |}).

Definition get_ndarray (l : loc) : py ndarray :=
  do o <- lookup_obj l;
  match o with ONdarray a => ret a | _ => raise TypeError end.

Definition get_Parameter (l : loc) : py Parameter' :=
  do o <- lookup_obj l;
  match o with OParameter p => ret p | _ => raise TypeError end.

Definition get_Parameters (l : loc) : py Parameters' :=
  do o <- lookup_obj l;
  match o with OParameters c => ret c | _ => raise TypeError end.

Definition get_Parameterized (l : loc) : py Parameterized :=
  do o <- lookup_obj l;
  match o with OParameterized o => ret o | _ => raise TypeError end.

(** *** [_outbounds] *)

Definition _outbounds (bounds : list (float * float)) (theta : list float)
  : exn + bool :=
  match Np.broadcast Np.lt theta (bounds.*1) with
  | None => inl (ValueError msg_broadcast)
  | Some below =>
    if Np.any below then inr true
    else match Np.broadcast Np.gt theta (bounds.*2) with
         | None => inl (ValueError msg_broadcast)
         | Some above => inr (Np.any above)
         end
  end.

(** *** class Parameter *)

Definition Parameter_size (self : loc) : py nat :=
  do p <- get_Parameter self;
  do a <- get_ndarray (value p);
  ret (length (Np.data a)).

Definition Parameter_get_value (self : loc) (transformed : bool)
  : py (list float) :=
  do p <- get_Parameter self;
  do a <- get_ndarray (value p);
  if transformed then ret (map (get_transform (transform p)) (Np.data a))
  else ret (Np.data a).

Definition Parameter_set_value (self : loc) (theta : list float)
    (transformed : bool) : py unit :=
  do p <- get_Parameter self;
  let theta :=
    if transformed then map (get_inverse (transform p)) theta else theta in
  do out <- lift (_outbounds (bounds p) theta);
  if out : bool then raise (ValueError msg_outside_bounds)
  else
    do a <- get_ndarray (value p);
    store (value p)
      (ONdarray (Np.Ndarray (Np.shape a) (Np.flat_assign (Np.data a) theta))).

(** [Parameter(value, domain, prior, block)]; [value] is the array the
    leaf will hold, by reference. *)
Definition Parameter_init (value : loc) (domain : Domain)
    (prior : option Prior) (block : Z) : py loc :=
  do self <- new_id;
  match TRANSFORMS domain with
  | None => raise KeyError
  | Some t =>
    match BOUNDS domain with
    | None => raise KeyError
    | Some b =>
      store self (OParameter {| value := value; prior := prior;
                                block := block; domain := domain;
                                transform := t; bounds := [b] |});;
      do a <- get_ndarray value;
      Parameter_set_value self (Np.data a) false;;
      ret self
    end
  end.

(** [np.c_[xs, ys]] of two vectors: the rows [(x, y)]. *)
Definition np_c_ {A} (xs ys : list A) : exn + list (A * A) :=
  if decide (length xs = length ys) then inr (zip xs ys)
  else inl (ValueError "all the input array dimensions must match").

(** [np.clip(v, lo, hi)] with array bounds: [minimum(maximum(v, lo), hi)],
    the operands broadcast. *)
Definition np_clip (v lo hi : list float) : exn + list float :=
  match Np.broadcast Np.maximum v lo with
  | None => inl (ValueError msg_broadcast)
  | Some m =>
    match Np.broadcast Np.minimum m hi with
    | None => inl (ValueError msg_broadcast)
    | Some r => inr r
    end
  end.

Definition Parameter_set_prior (self : loc) (prior : option string)
    (args : PriorArgs) : py unit :=
  do p <- get_Parameter self;
  match prior with
  | None =>
    let p1 := {| value := value p; prior := None; block := block p;
                 domain := domain p; transform := transform p;
                 bounds := bounds p |} in
    store self (OParameter p1);;
    match BOUNDS (domain p) with
    | None => raise KeyError
    | Some b =>
      store self (OParameter {| value := value p; prior := None;
                                block := block p; domain := domain p;
                                transform := transform p; bounds := [b] |})
    end
  | Some name =>
    match PRIORS name with
    | None => raise KeyError
    | Some make =>
      do pr <- lift (make args);
      match BOUNDS (domain p) with
      | None => raise KeyError
      | Some d =>
        let pbounds := prior_bounds pr in
        let dbounds :=
          if decide (1 < length pbounds)
          then replicate (length pbounds) d else [d] in
        do out_lo <- lift (_outbounds dbounds (pbounds.*1));
        do out <- (if out_lo : bool then ret true
                   else lift (_outbounds dbounds (pbounds.*2)));
        if out : bool then raise (ValueError msg_outside_domain)
        else
          do los <- lift (np_c_ (pbounds.*1) (dbounds.*1));
          do his <- lift (np_c_ (pbounds.*2) (dbounds.*2));
          do bounds <- lift (np_c_ (map (λ r, Np.maximum r.1 r.2) los)
                                   (map (λ r, Np.minimum r.1 r.2) his));
          do a <- get_ndarray (value p);
          do outside <- lift (_outbounds bounds (Np.data a));
          (if outside : bool then warn msg_clipping else ret ());;
          do v <- lift (np_clip (Np.data a) (bounds.*1) (bounds.*2));
          store self (OParameter {| value := value p; prior := Some pr;
                                    block := block p; domain := domain p;
                                    transform := transform p;
                                    bounds := bounds |});;
          do a <- get_ndarray (value p);
          store (value p)
            (ONdarray (Np.Ndarray (Np.shape a)
                                  (Np.flat_assign (Np.data a) v)))
      end
    end
  end.

(** *** Ordered dictionaries with string keys *)

Fixpoint od_get {V} (d : list (string * V)) (k : string) : option V :=
  match d with
  | [] => None
  | (k', v) :: d' => if decide (k' = k) then Some v else od_get d' k
  end.

Definition od_mem {V} (d : list (string * V)) (k : string) : bool :=
  bool_decide (is_Some (od_get d k)).

(** [d[k] = v]: in place for a key that is there, at the end otherwise. *)
Fixpoint od_set {V} (d : list (string * V)) (k : string) (v : V)
  : list (string * V) :=
  match d with
  | [] => [(k, v)]
  | (k', v') :: d' =>
    if decide (k' = k) then (k', v) :: d' else (k', v') :: od_set d' k v
  end.

(** *** class Parameters *)

Definition Parameters_init (owner : loc) (items : list (string * loc))
  : py loc :=
  alloc (OParameters {| obj := owner; params := items |}).

Fixpoint getitem_loop (src : list (string * loc)) (keys : list string)
    (acc : list (string * loc)) : exn + list (string * loc) :=
  match keys with
  | [] => inr acc
  | key :: keys' =>
    if od_mem acc key then inl (ValueError (msg_duplicate_key key))
    else match od_get src key with
         | None => inl (ValueError (msg_unknown_key key))
         | Some p => getitem_loop src keys' (od_set acc key p)
         end
  end.

(** [self[keys]]: a new container on the same leaves. *)
Definition Parameters_getitem (self : loc) (keys : list string) : py loc :=
  do c <- get_Parameters self;
  do items <- lift (getitem_loop (params c) keys []);
  Parameters_init (obj c) items.

(** The leaf case of [_register]. *)
Definition register_leaf (self : loc) (name : string) (param : loc)
  : py unit :=
  do c <- get_Parameters self;
  if od_mem (params c) name then raise (ValueError (msg_registered name))
  else store self (OParameters {| obj := obj c;
                                  params := od_set (params c) name param |}).

(** The loop of the container case of [_register]; every entry of a
    container is a leaf, anything else is refused as [_register] does. *)
Fixpoint register_items (self : loc) (name : option string)
    (items : list (string * loc)) : py unit :=
  match items with
  | [] => ret ()
  | (n, p) :: items' =>
    let n := match name with Some name => name +:+ "." +:+ n | None => n end in
    do o <- lookup_obj p;
    match o with
    | OParameter _ => register_leaf self n p;; register_items self name items'
    | _ => raise (ValueError msg_unknown_type)
    end
  end.

(** [self._register(name, param)].

    A container registered into itself is read by the loop while the
    insertions change it.  The iterator of an [OrderedDict] steps to the
    next entry when it hands out the current one, and looks for changes
    only when it is asked for an entry that exists: an empty container
    returns at once; the first entry is registered as any other (under
    its own key, when there is no name, which is the error of the
    duplicate name); after a successful insertion the loop ends normally
    when that entry was the only one and raises [RuntimeError] otherwise.

    The dictionaries of this model are keyed by strings.  A leaf
    registered under the name [None] is stored by the code under the key
    [None]; the model has no such key and stops there with [TypeError].
    The results below register leaves under a name. *)
Definition Parameters__register (self : loc) (name : option string)
    (param : loc) : py unit :=
  do o <- lookup_obj param;
  match o with
  | OParameter _ =>
    match name with
    | Some name => register_leaf self name param
    | None => raise TypeError
    end
  | OParameters c =>
    if decide (param = self) then
      match params c with
      | [] => ret ()
      | item :: rest =>
        register_items self name [item];;
        match rest with
        | [] => ret ()
        | _ :: _ => raise (RuntimeError "OrderedDict mutated during iteration")
        end
      end
    else register_items self name (params c)
  | _ => raise (ValueError msg_unknown_type)
  end.

(** The pairs (block, size) of the leaves, in dictionary order. *)
Fixpoint leaf_info (items : list (string * loc)) : py (list (Z * nat)) :=
  match items with
  | [] => ret []
  | (_, l) :: items' =>
    do p <- get_Parameter l;
    do a <- get_ndarray (value p);
    do rest <- leaf_info items';
    ret ((block p, length (Np.data a)) :: rest)
  end.

Definition Parameters_size (self : loc) : py nat :=
  do c <- get_Parameters self;
  do info <- leaf_info (params c);
  ret (sum_list (info.*2)).

Definition Parameters_block (self : loc) : py (list Z) :=
  do c <- get_Parameters self;
  do info <- leaf_info (params c);
  ret (info.*1).

Fixpoint set_block_loop (tagged : list (Z * loc)) : py unit :=
  match tagged with
  | [] => ret ()
  | (tag, l) :: tagged' =>
    do p <- get_Parameter l;
    store l (OParameter {| value := value p; prior := prior p; block := tag;
                           domain := domain p; transform := transform p;
                           bounds := bounds p |});;
    set_block_loop tagged'
  end.

(** The setter of [block]: one tag for all the leaves, or one per leaf. *)
Definition Parameters_set_block (self : loc) (tags : Z + list Z) : py unit :=
  do c <- get_Parameters self;
  let tags :=
    match tags with
    | inl tag => replicate (length (params c)) tag
    | inr tags => tags
    end in
  if decide (length tags = length (params c))
  then set_block_loop (zip tags (params c).*2)
  else raise (ValueError msg_block).

(** [blocks.setdefault(tag, []).extend(idx)] on a dictionary kept in
    insertion order. *)
Fixpoint setdefault_extend (blocks : list (Z * list nat)) (tag : Z)
    (idx : list nat) : list (Z * list nat) :=
  match blocks with
  | [] => [(tag, idx)]
  | (t, l) :: blocks' =>
    if decide (t = tag) then (t, l ++ idx) :: blocks'
    else (t, l) :: setdefault_extend blocks' tag idx
  end.

Fixpoint blocks_loop (info : list (Z * nat)) (a : nat)
    (blocks : list (Z * list nat)) : list (Z * list nat) :=
  match info with
  | [] => blocks
  | (tag, size) :: info' =>
    let b := a + size in
    blocks_loop info' b (setdefault_extend blocks tag (seq a (b - a)))
  end.

(** The dictionary that [blocks] builds; the property returns its values. *)
Definition Parameters_blocks_dict (self : loc) : py (list (Z * list nat)) :=
  do c <- get_Parameters self;
  do info <- leaf_info (params c);
  ret (blocks_loop info 0 []).

Definition Parameters_blocks (self : loc) : py (list (list nat)) :=
  do d <- Parameters_blocks_dict self;
  ret (d.*2).

(** [Parameterized._update]: a hook that does nothing here; the call is
    recorded. *)
Definition Parameterized__update (self : loc) : py unit :=
  get_Parameterized self;;
  λ h, (Return (), {| objs := objs h; next_id := next_id h;
                      updates := updates h ++ [(self, objs h)];
                      warned := warned h |}).

Definition Parameters_set_prior (self : loc) (prior : option string)
    (args : PriorArgs) : py unit :=
  do c <- get_Parameters self;
  if decide (1 < length (params c)) then raise (RuntimeError msg_several)
  else
    match params c with
    | (_, p) :: _ => Parameter_set_prior p prior args
    | [] => ret ()
    end;;
    Parameterized__update (obj c).

(** [theta[a:b]] *)
Definition slice {A} (a b : nat) (theta : list A) : list A :=
  take (b - a) (drop a theta).

Fixpoint set_value_loop (items : list (string * loc)) (theta : list float)
    (transformed : bool) (a : nat) : py unit :=
  match items with
  | [] => ret ()
  | (_, param) :: items' =>
    do size <- Parameter_size param;
    let b := a + size in
    Parameter_set_value param (slice a b theta) transformed;;
    set_value_loop items' theta transformed b
  end.

Definition Parameters_set_value (self : loc) (theta : ndarray)
    (transformed : bool) : py unit :=
  let theta := Np.atleast 1 theta in
  do size <- Parameters_size self;
  if decide (Np.shape theta = [size]) then
    do c <- get_Parameters self;
    set_value_loop (params c) (Np.data theta) transformed 0;;
    Parameterized__update (obj c)
  else raise (ValueError msg_number).

Fixpoint get_value_loop (items : list (string * loc)) (transformed : bool)
  : py (list float) :=
  match items with
  | [] => ret []
  | (_, param) :: items' =>
    do v <- Parameter_get_value param transformed;
    do rest <- get_value_loop items' transformed;
    ret (v ++ rest)
  end.

Definition Parameters_get_value (self : loc) (transformed : bool)
  : py (list float) :=
  do c <- get_Parameters self;
  get_value_loop (params c) transformed.

(** *** [copy.deepcopy] on the objects of the module

    [memo] maps the identity of an object to its copy.  The three
    [__deepcopy__] methods call back [copy.deepcopy], here [dc]; the depth
    of the calls is bounded, as in Python. *)

Definition deepcopier : Type := loc → gmap loc loc → py (loc * gmap loc loc).

Definition Parameter___deepcopy__ (dc : deepcopier) (self : loc)
    (memo : gmap loc loc) : py (loc * gmap loc loc) :=
  do p <- get_Parameter self;
  do new <- new_id;
  let memo := <[self := new]> memo in
  do a <- get_ndarray (value p);
  do v <- alloc (ONdarray a);
  let memo := <[value p := v]> memo in
  do '(v', memo) <- dc (value p) memo;
  store new (OParameter {| value := v'; prior := prior p; block := block p;
                           domain := domain p; transform := transform p;
                           bounds := bounds p |});;
  ret (new, memo).

(** The copies of the values of a dictionary, in order. *)
Fixpoint deepcopy_items (dc : deepcopier) (items : list (string * loc))
    (memo : gmap loc loc) : py (list (string * loc) * gmap loc loc) :=
  match items with
  | [] => ret ([], memo)
  | (k, l) :: items' =>
    do '(l', memo) <- dc l memo;
    do '(rest, memo) <- deepcopy_items dc items' memo;
    ret ((k, l') :: rest, memo)
  end.

Definition Parameters___deepcopy__ (dc : deepcopier) (self : loc)
    (memo : gmap loc loc) : py (loc * gmap loc loc) :=
  do c <- get_Parameters self;
  do new <- new_id;
  let memo := <[self := new]> memo in
  let memo :=
    match memo !! obj c with
    | Some _ => memo
    | None => <[obj c := obj c]> memo
    end in
  do '(_, memo) <- deepcopy_items dc (params c) memo;
  do '(owner, memo) <- dc (obj c) memo;
  do '(items, memo) <- deepcopy_items dc (params c) memo;
  store new (OParameters {| obj := owner; params := items |});;
  ret (new, memo).

Definition deepcopy_pyval (dc : deepcopier) (v : pyval)
    (memo : gmap loc loc) : py (pyval * gmap loc loc) :=
  match v with
  | PyRef l => do '(l', memo) <- dc l memo; ret (PyRef l', memo)
  | _ => ret (v, memo)
  end.

Fixpoint deepcopy_attrs (dc : deepcopier) (kvs : list (string * pyval))
    (memo : gmap loc loc) : py (list (string * pyval) * gmap loc loc) :=
  match kvs with
  | [] => ret ([], memo)
  | (k, v) :: kvs' =>
    do '(v', memo) <- deepcopy_pyval dc v memo;
    do '(rest, memo) <- deepcopy_attrs dc kvs' memo;
    ret ((k, v') :: rest, memo)
  end.

Definition Parameterized___deepcopy__ (dc : deepcopier) (self : loc)
    (memo : gmap loc loc) : py (loc * gmap loc loc) :=
  do o <- get_Parameterized self;
  do new <- new_id;
  let memo := <[self := new]> memo in
  do '(_, memo) <- dc (self_params o) memo;
  do '(c, memo) <- dc (self_params o) memo;
  do '(kvs, memo) <- deepcopy_attrs dc (attrs o) memo;
  store new (OParameterized {| self_params := c; attrs := kvs |});;
  ret (new, memo).

Fixpoint deepcopy (depth : nat) (x : loc) (memo : gmap loc loc)
  : py (loc * gmap loc loc) :=
  match memo !! x with
  | Some y => ret (y, memo)
  | None =>
    match depth with
    | 0 => raise (RuntimeError msg_recursion)
    | S depth =>
      do o <- lookup_obj x;
      do '(y, memo) <-
        match o with
        | ONdarray a => do y <- alloc (ONdarray a); ret (y, memo)
        | OParameter _ => Parameter___deepcopy__ (deepcopy depth) x memo
        | OParameters _ => Parameters___deepcopy__ (deepcopy depth) x memo
        | OParameterized _ =>
          Parameterized___deepcopy__ (deepcopy depth) x memo
        end;
      ret (y, <[x := y]> memo)
    end
  end.

(** *** class Parameterized *)

Definition Parameterized_init : py loc :=
  do self <- new_id;
  do c <- Parameters_init self [];
  store self (OParameterized {| self_params := c; attrs := [] |});;
  ret self.

(** [setattr(self, k, v)] *)
Definition Parameterized_setattr (self : loc) (k : string) (v : pyval)
  : py unit :=
  do o <- get_Parameterized self;
  store self (OParameterized {| self_params := self_params o;
                                attrs := od_set (attrs o) k v |}).

Definition Parameterized_copy (depth : nat) (self : loc)
    (theta : option ndarray) (transformed : bool) : py loc :=
  do '(new, _) <- deepcopy depth self ∅;
  match theta with
  | None => ret new
  | Some theta =>
    do o <- get_Parameterized new;
    Parameters_set_value (self_params o) theta transformed;;
    ret new
  end.

(** The shape that a declaration asks for: an integer stands for itself, a
    label for the dimension it met first. *)
Fixpoint resolve_shape (shape : list (nat + string)) (dims : list nat)
    (shapes : list (string * nat)) : list nat :=
  match shape, dims with
  | inl d :: shape', _ :: dims' => d :: resolve_shape shape' dims' shapes
  | inr d :: shape', d_ :: dims' =>
    match od_get shapes d with
    | Some n => n :: resolve_shape shape' dims' shapes
    | None => d_ :: resolve_shape shape' dims' (od_set shapes d d_)
    end
  | _, _ => []
  end.

Definition str_shape (shape : list (nat + string)) : string :=
  String.concat ", "
    (map (λ d, match d with inl n => pretty n | inr s => s end) shape).

(** [self._register(name, param, domain, shape)]; [param] is what
    [np.array(param, dtype=float)] makes of the initial value. *)
Definition Parameterized__register (self : loc) (name : string)
    (param : ndarray) (domain : Domain) (shape : list (nat + string))
  : py loc :=
  do a <- alloc (ONdarray (Np.atleast (length shape) param));
  do arr <- get_ndarray a;
  if decide (Np.shape arr = resolve_shape shape (Np.shape arr) []) then
    do o <- get_Parameterized self;
    do leaf <- Parameter_init a domain None 0;
    Parameters__register (self_params o) (Some name) leaf;;
    ret a
  else raise (ValueError (msg_shape name (str_shape shape))).

(** [self._register_obj(name, param, klass)]; a class is its name and its
    instance test. *)
Definition Parameterized__register_obj (depth : nat) (self : loc)
    (name : string) (param : loc) (klass : option (string * (object → bool)))
  : py loc :=
  do o <- lookup_obj param;
  match klass with
  | Some (cls, isinstance) =>
    if isinstance o then ret () else raise (ValueError (msg_must_be name cls))
  | None => ret ()
  end;;
  match o with
  | OParameterized _ => ret ()
  | _ => raise (ValueError (msg_must_be name "Parameterized"))
  end;;
  do new <- Parameterized_copy depth param None false;
  do me <- get_Parameterized self;
  do sub <- get_Parameterized new;
  Parameters__register (self_params me) (Some name) (self_params sub);;
  ret new.

(** *** [names] and [get_bounds] of class Parameters *)



Definition msg_setitem (r n : nat) : string :=
  "could not broadcast input array from shape (" +:+ pretty r +:+
  ",2) into shape (" +:+ pretty n +:+ ",2)".

(** [out[a:b] = rows] on an array of rows: as many rows as the slice has, or one row for
    all of them. *)
Definition setitem_rows (out : list (float * float)) (a b : nat)
    (rows : list (float * float)) : exn + list (float * float) :=
  let n := length (slice a b out) in
  if decide (length rows = n)
  then inr (take a out ++ rows ++ drop b out)
  else match rows with
       | [r] => inr (take a out ++ replicate n r ++ drop b out)
       | _ => inl (ValueError (msg_setitem (length rows) n))
       end.

Fixpoint get_bounds_loop (items : list (string * loc)) (transformed : bool)
    (a : nat) (out : list (float * float))
  : py (list (float * float)) :=
  match items with
  | [] => ret out
  | (_, param) :: items' =>
    do p <- get_Parameter param;
    do arr <- get_ndarray (value p);
    let b := a + length (Np.data arr) in
    let rows :=
      if transformed
      then (λ r, (get_transform (transform p) r.1,
                  get_transform (transform p) r.2)) <$> bounds p
      else bounds p in
    do out <- lift (setitem_rows out a b rows);
    get_bounds_loop items' transformed b out
  end.

Definition Parameters_get_bounds (self : loc) (transformed : bool)
  : py (list (float * float)) :=
  do size <- Parameters_size self;
  do c <- get_Parameters self;
  get_bounds_loop (params c) transformed 0 (replicate size (Np.ninf, Np.inf)).

End Program.

(** ** An example registry

    Modelled from the spec: the registries of this repository are not in
    [params.py]; the examples below run on a registry with the real line
    and a half-line as domains ("must be positive") and the prior
    ["uniform"] of the spec, whose support is the box [(lo, hi)] it is
    given.  Only natural-space operations are run on it, so its transforms
    are the identity. *)

Module Example.

Inductive domain_id := REAL | POSITIVE.

Definition identity : Transform :=
  {| get_transform := id; get_inverse := id;
     get_gradfactor := λ _, Np.of_Z 1 |}.

(** A prior is described by the rows of its support. *)
Definition uniform (args : list (float * float)) : exn + list (float * float) :=
  inr args.

#[export] Instance registries : Registries := {|
  Domain := domain_id;
  Prior := list (float * float);
  PriorArgs := list (float * float);
  BOUNDS := λ d, match d with
                 | REAL => Some (Np.ninf, Np.inf)
                 | POSITIVE => Some (Np.of_Z 0, Np.inf)
                 end;
  TRANSFORMS := λ _, Some identity;
  PRIORS := λ name, if decide (name = "uniform") then Some uniform else None;
  prior_bounds := id
|}.

(** A vector as an array of one dimension. *)
Definition vec (zs : list Z) : ndarray :=
  Np.Ndarray [length zs] (map Np.of_Z zs).

(** A scalar as an array of no dimension. *)
Definition scalar (z : Z) : ndarray := Np.Ndarray [] [Np.of_Z z].

(** Runs a computation on the empty store. *)
Definition run {A} (c : py A) : outcome A * heap := c empty_heap.

(** An owner with three leaves [a], [b], [c] of sizes 2, 1 and 3. *)
Definition three_leaves : py loc :=
  do self <- Parameterized_init;
  Parameterized__register self "a" (vec [1; 2]%Z) REAL [inl 2];;
  Parameterized__register self "b" (scalar 3) POSITIVE [];;
  Parameterized__register self "c" (vec [4; 5; 6]%Z) REAL [inl 3];;
  ret self.

(** The same owner with the block tags 0, 1, 0; the result is its
    container. *)
Definition three_leaves_tagged : py loc :=
  do self <- three_leaves;
  do o <- get_Parameterized self;
  Parameters_set_block (self_params o) (inr [0; 1; 0]%Z);;
  ret (self_params o).

(** A second owner, with one leaf named [s.b], beside the first. *)
Definition two_owners : py loc :=
  three_leaves;;
  do other <- Parameterized_init;
  Parameterized__register other "s.b" (scalar 1) REAL [];;
  ret other.

End Example.

(** * Vocabulary of the specification *)

(** ** The order of the doubles

    A double that is not NaN is ranked by a triple of integers compared
    lexicographically: its class (the infinities, the negative and the
    positive numbers, zero), then its exponent and its mantissa, both
    negated for a negative number. *)

Definition rank (x : float) : option (Z * Z * Z) :=
  match x with
  | S754_nan => None
  | S754_infinity true => Some (-2, 0, 0)%Z
  | S754_infinity false => Some (2, 0, 0)%Z
  | S754_zero _ => Some (0, 0, 0)%Z
  | S754_finite false m e => Some (1, e, Z.pos m)%Z
  | S754_finite true m e => Some (-1, - e, Z.neg m)%Z
  end.

Definition lex_cmp (a b : Z * Z * Z) : comparison :=
  match (a.1.1 ?= b.1.1)%Z with
  | Eq => match (a.1.2 ?= b.1.2)%Z with Eq => (a.2 ?= b.2)%Z | c => c end
  | c => c
  end.

Definition lex_lt (a b : Z * Z * Z) : Prop :=
  (a.1.1 < b.1.1 ∨ (a.1.1 = b.1.1 ∧
    (a.1.2 < b.1.2 ∨ (a.1.2 = b.1.2 ∧ a.2 < b.2))))%Z.

Definition lex_le (a b : Z * Z * Z) : Prop :=
  (a.1.1 < b.1.1 ∨ (a.1.1 = b.1.1 ∧
    (a.1.2 < b.1.2 ∨ (a.1.2 = b.1.2 ∧ a.2 ≤ b.2))))%Z.

#[global] Instance lex_lt_dec a b : Decision (lex_lt a b).
Proof. unfold lex_lt. apply _. Defined.

#[global] Instance lex_le_dec a b : Decision (lex_le a b).
Proof. unfold lex_le. apply _. Defined.

(** [x] lies in the box [b]: not below its lower end, not above its upper
    end, which is what [_outbounds] tests. *)
Definition within (b : float * float) (x : float) : Prop :=
  Np.lt x b.1 = false ∧ Np.gt x b.2 = false.

(** A box with ordered ends (neither of which is then NaN). *)
Definition box (b : float * float) : Prop := Np.le b.1 b.2 = true.

(** [x] lies between the ends of [b]: [lo <= x <= hi], which no NaN
    does. *)
Definition between (b : float * float) (x : float) : Prop :=
  Np.le b.1 x = true ∧ Np.le x b.2 = true.




(** ** Stores *)

Section Vocabulary.
Context `{Registries}.

(** Every object has an identity that was handed out. *)
Definition heap_ok (h : heap) : Prop :=
  ∀ l, is_Some (objs h !! l) → l < next_id h.

#[global] Instance heap_ok_dec h : Decision (heap_ok h).
Proof.
  refine (cast_if (decide (map_Forall (λ l _, l < next_id h) (objs h))));
    unfold heap_ok, map_Forall in *.
  - intros l [o Ho]. eauto.
  - intros Hok. apply n. intros l o Ho. apply Hok. by eexists.
Defined.

(** ** [blocks], in the words of the specification

    Each leaf contributes the consecutive indices at its offset; a group
    gathers the contributions of the leaves of one tag; the groups come in
    the order in which their tags are first seen. *)

Fixpoint leaf_ranges (info : list (Z * nat)) (a : nat)
  : list (Z * list nat) :=
  match info with
  | [] => []
  | (tag, size) :: info' => (tag, seq a size) :: leaf_ranges info' (a + size)
  end.

Fixpoint first_seen (tags : list Z) : list Z :=
  match tags with
  | [] => []
  | t :: tags' => t :: filter (λ t', t' ≠ t) (first_seen tags')
  end.

Definition group (tag : Z) (ranges : list (Z * list nat)) : list nat :=
  concat (filter (λ r, r.1 = tag) ranges).*2.

Definition blocks_spec (info : list (Z * nat)) : list (Z * list nat) :=
  (λ t, (t, group t (leaf_ranges info 0))) <$> first_seen (info.*1).

(** ** What a computation leaves alone

    [keeps R c]: the stores before and after [c] are related by [R],
    whatever the outcome. *)

Definition keeps {A} (R : heap → heap → Prop) (c : py A) : Prop :=
  ∀ h r h', c h = (r, h') → R h h'.

(** The log of the hook is left alone. *)
Definition same_updates (h h' : heap) : Prop := updates h' = updates h.

#[global] Instance same_updates_preorder : PreOrder same_updates.
Proof. split; [done|]. unfold same_updates. intros ???. congruence. Qed.

(** ** Boxes and rows

    The rows of a box array apply to a vector one to one, or a single row
    applies to every component ([expand]); [inside] is the invariant of a
    leaf, [clip] and [intersect] are what [set_prior] computes. *)

Definition expand {A} (ys : list A) (n : nat) : list A :=
  match ys with
  | [y] => replicate n y
  | _ => ys
  end.

Definition inside (bounds : list (float * float)) (theta : list float) : Prop :=
  Forall2 within (expand bounds (length theta)) theta.

#[global] Instance within_dec b x : Decision (within b x).
Proof. unfold within. apply _. Defined.

#[global] Instance inside_dec bounds theta : Decision (inside bounds theta).
Proof. unfold inside. apply _. Defined.

Definition clip (b : float * float) (x : float) : float :=
  Np.minimum (Np.maximum x b.1) b.2.

Definition intersect (d r : float * float) : float * float :=
  (Np.maximum r.1 d.1, Np.minimum r.2 d.2).


(** The exceptions that a computation can raise. *)
Definition raises_only {A} (P : exn → Prop) (c : py A) : Prop :=
  ∀ h e h', c h = (Raise e, h') → P e.


(** ** The life of a leaf *)




(** What the proof carries along: the leaf, its array, the box of its
    domain, rows of bounds that lie in that box, and a value inside the
    rows. *)
Definition leaf_inv (l : loc) (h : heap) : Prop :=
  ∃ p a d,
    objs h !! l = Some (OParameter p) ∧
    objs h !! value p = Some (ONdarray a) ∧
    BOUNDS (domain p) = Some d ∧
    Forall (λ r, Np.le d.1 r.1 = true ∧ Np.le r.2 d.2 = true) (bounds p) ∧
    inside (bounds p) (Np.data a).

(** ** Container [set_value] and failures *)

(** Only the elements of arrays change: every other object, the shape and
    the size of every array, the identities handed out, the log of the
    hook and the warnings are as before. *)
Definition values_only (h h' : heap) : Prop :=
  next_id h' = next_id h ∧ updates h' = updates h ∧ warned h' = warned h ∧
  ∀ l, match objs h !! l with
       | Some (ONdarray a) =>
         ∃ a', objs h' !! l = Some (ONdarray a') ∧
               Np.shape a' = Np.shape a ∧
               length (Np.data a') = length (Np.data a)
       | o => objs h' !! l = o
       end.

#[global] Instance values_only_preorder : PreOrder values_only.
Proof.
  split.
  - intros h. split_and!; try done. intros l.
    destruct (objs h !! l) as [[]|] eqn:E; eauto.
  - intros h1 h2 h3 (Hn & Hu & Hw & Hl) (Hn' & Hu' & Hw' & Hl').
    split_and!; try congruence. intros l.
    specialize (Hl l). specialize (Hl' l).
    destruct (objs h1 !! l) as [[a| | |]|] eqn:E.
    + destruct Hl as (a' & Ha' & Hs & Hd). rewrite Ha' in Hl'.
      destruct Hl' as (a'' & Ha'' & Hs' & Hd'). exists a''.
      split_and!; congruence.
    + by rewrite Hl in Hl'.
    + by rewrite Hl in Hl'.
    + by rewrite Hl in Hl'.
    + by rewrite Hl in Hl'.
Qed.

(** [set_value] of a container, in the words of the specification: the
    vector is cut into consecutive slices of the sizes of the leaves, slice
    [i] goes to leaf [i] through the [set_value] of the leaf, and the hook
    of the owner is called once, last. *)
Fixpoint partition_slices (sizes : list nat) (theta : list float)
  : list (list float) :=
  match sizes with
  | [] => []
  | n :: sizes' => take n theta :: partition_slices sizes' (drop n theta)
  end.

Fixpoint assign_slices (leaves : list loc) (slices : list (list float))
    (transformed : bool) : py unit :=
  match leaves, slices with
  | leaf :: leaves', s :: slices' =>
    Parameter_set_value leaf s transformed;;
    assign_slices leaves' slices' transformed
  | _, _ => ret ()
  end.

Definition set_value_spec (owner : loc) (leaves : list loc)
    (sizes : list nat) (theta : list float) (transformed : bool) : py unit :=
  assign_slices leaves (partition_slices sizes theta) transformed;;
  Parameterized__update owner.

(** The operations of a leaf and of a container that can fail, and the
    failures of the specification: domain violation, shape mismatch,
    domain mismatch, ambiguous target, duplicate and unknown key,
    duplicate name. *)
Inductive operation :=
| LeafSetValue (leaf : loc) (theta : list float) (transformed : bool)
| LeafSetPrior (leaf : loc) (prior : option string) (args : PriorArgs)
| SetValue (c : loc) (theta : ndarray) (transformed : bool)
| SetPrior (c : loc) (prior : option string) (args : PriorArgs)
| Select (c : loc) (keys : list string)
| Register (c : loc) (name : string) (param : loc).

Definition perform (op : operation) : py unit :=
  match op with
  | LeafSetValue leaf theta transformed =>
    Parameter_set_value leaf theta transformed
  | LeafSetPrior leaf prior args => Parameter_set_prior leaf prior args
  | SetValue c theta transformed => Parameters_set_value c theta transformed
  | SetPrior c prior args => Parameters_set_prior c prior args
  | Select c keys => Parameters_getitem c keys;; ret ()
  | Register c name param => Parameters__register c (Some name) param
  end.

Inductive failure : exn → Prop :=
| domain_violation : failure (ValueError msg_outside_bounds)
| shape_mismatch : failure (ValueError msg_number)
| domain_mismatch : failure (ValueError msg_outside_domain)
| ambiguous_target : failure (RuntimeError msg_several)
| duplicate_key k : failure (ValueError (msg_duplicate_key k))
| unknown_key k : failure (ValueError (msg_unknown_key k))
| duplicate_name n : failure (ValueError (msg_registered n)).

(** A computation that fails that way fails before it changes anything. *)
Definition fails_clean {A} (c : py A) : Prop :=
  ∀ h e h', c h = (Raise e, h') → failure e → h' = h.

(** ** Copies *)

Definition is_ndarray (h : heap) (l : loc) : bool :=
  match objs h !! l with Some (ONdarray _) => true | _ => false end.

Definition is_leaf (h : heap) (l : loc) : bool :=
  match objs h !! l with Some (OParameter _) => true | _ => false end.

Definition is_owner (h : heap) (l : loc) : bool :=
  match objs h !! l with Some (OParameterized _) => true | _ => false end.

(** The references of an object resolve to objects of the classes that the
    module puts there: the value of a leaf is an array, a container holds
    leaves and refers to an owner, the container of an owner refers back
    to it, and the attributes of an owner refer to objects of the store. *)
Definition well_typed (h : heap) (l : loc) (o : object) : bool :=
  match o with
  | ONdarray _ => true
  | OParameter p => is_ndarray h (value p)
  | OParameters c =>
    is_owner h (obj c) && forallb (λ kl, is_leaf h kl.2) (params c)
  | OParameterized o =>
    match objs h !! self_params o with
    | Some (OParameters c) => bool_decide (obj c = l)
    | _ => false
    end
    && forallb (λ kv, match kv.2 with
                      | PyRef l' => bool_decide (is_Some (objs h !! l'))
                      | _ => true
                      end) (attrs o)
  end.

Definition closed (h : heap) : Prop :=
  map_Forall (λ l o, l < next_id h ∧ well_typed h l o = true) (objs h).

#[global] Instance closed_dec h : Decision (closed h).
Proof. unfold closed. apply _. Defined.

(** The objects that exist stay as they are, the logs too. *)
Definition grows (h h' : heap) : Prop :=
  next_id h ≤ next_id h' ∧ updates h' = updates h ∧ warned h' = warned h ∧
  ∀ l : loc, l < next_id h → objs h' !! l = objs h !! l.

#[global] Instance grows_preorder : PreOrder grows.
Proof.
  split.
  - by intros h.
  - intros h1 h2 h3 (Hn & Hu & Hw & Hl) (Hn' & Hu' & Hw' & Hl').
    split_and!; [lia|congruence..|].
    intros l Hlt. rewrite Hl' by lia. by apply Hl.
Qed.

(** A leaf made by a copy of the store [h0]: it and its array are not
    objects of [h0]. *)
Definition fresh_leaf (h0 h : heap) (l : loc) : Prop :=
  ∃ p a, objs h !! l = Some (OParameter p) ∧
         objs h !! value p = Some (ONdarray a) ∧
         next_id h0 ≤ l ∧ next_id h0 ≤ value p.

(** What holds between the calls of [deepcopy] during a copy of objects
    of [h0]. *)
Definition copying (h0 : heap) (memo : gmap loc loc) (h : heap) : Prop :=
  heap_ok h ∧ next_id h0 ≤ next_id h ∧
  (∀ l : loc, l < next_id h0 → objs h !! l = objs h0 !! l) ∧
  ∀ l l', memo !! l = Some l' → is_leaf h0 l = true → fresh_leaf h0 h l'.

(** The entries of the memo stay, but for those of arrays. *)
Definition memo_le (h0 : heap) (memo memo' : gmap loc loc) : Prop :=
  dom memo ⊆ dom memo' ∧
  ∀ k v, is_ndarray h0 k = false → memo !! k = Some v → memo' !! k = Some v.

Definition copied (memo : gmap loc loc) (kl kl' : string * loc) : Prop :=
  kl'.1 = kl.1 ∧ memo !! kl.2 = Some kl'.2.

(** What a call of [deepcopy] on [x] has done when it returns [y]. *)
Definition copy_post (h0 : heap) (x : loc) (memo : gmap loc loc) (h : heap)
    (y : loc) (memo' : gmap loc loc) (h' : heap) : Prop :=
  copying h0 memo' h' ∧ grows h h' ∧ memo' !! x = Some y ∧
  memo_le h0 memo memo' ∧
  (∀ c, objs h0 !! x = Some (OParameters c) → memo !! x = None →
     ∃ items',
       objs h' !! y = Some (OParameters {| obj := default (obj c) (memo !! obj c);
                                           params := items' |}) ∧
       Forall2 (copied memo') (params c) items') ∧
  (∀ o c, objs h0 !! x = Some (OParameterized o) → memo !! x = None →
     objs h0 !! self_params o = Some (OParameters c) →
     memo !! self_params o = None →
     ∃ y' kvs items',
       objs h' !! y = Some (OParameterized {| self_params := y'; attrs := kvs |}) ∧
       objs h' !! y' = Some (OParameters {| obj := y; params := items' |}) ∧
       Forall2 (copied memo') (params c) items') ∧
  (memo !! x = None → y = next_id h).

Definition dc_spec (h0 : heap) (m : nat) (dc : deepcopier) : Prop :=
  (∀ x y memo, memo !! x = Some y → dc x memo = ret (y, memo)) ∧
  (∀ x memo h,
     copying h0 memo h → is_Some (objs h0 !! x) →
     size (dom (objs h0) ∖ dom memo) ≤ m →
     ∃ y memo' h', dc x memo h = (Return (y, memo'), h') ∧
                   copy_post h0 x memo h y memo' h').

(** ** Selection and registration *)

(** The entries of [src] under the keys [keys], in the order of [keys]. *)
Definition select_items (src : list (string * loc)) (keys : list string)
  : list (string * loc) :=
  omap (λ k, (k,.) <$> od_get src k) keys.

(** The key under which [_register] files the entry [n] of a container
    registered under [name]. *)
Definition key_of (name : option string) (n : string) : string :=
  match name with Some name => name +:+ "." +:+ n | None => n end.

Definition prefixed (name : option string) (items : list (string * loc))
  : list (string * loc) :=
  (λ kl, (key_of name kl.1, kl.2)) <$> items.

(** The arrays of the leaves of a dictionary. *)
Definition leaf_values (h : heap) (items : list (string * loc)) : list loc :=
  omap (λ kl : string * loc,
          match objs h !! kl.2 with
          | Some (OParameter p) => Some (value p)
          | _ => None
          end) items.

(** Every entry of [items] is a leaf whose array holds the matching
    vector of [vs]. *)
Definition holds (h : heap) (items : list (string * loc))
    (vs : list (list float)) : Prop :=
  Forall2 (λ (kl : string * loc) v,
             ∃ p a, objs h !! kl.2 = Some (OParameter p) ∧
                    objs h !! value p = Some (ONdarray a) ∧
                    Np.data a = v) items vs.

(** The rows of bounds of the leaves of a dictionary, one per component. *)
Definition leaf_rows (h : heap) (items : list (string * loc))
  : list (float * float) :=
  flat_map (λ kl : string * loc,
              match objs h !! kl.2 with
              | Some (OParameter p) =>
                match objs h !! value p with
                | Some (ONdarray a) => expand (bounds p) (length (Np.data a))
                | _ => []
                end
              | _ => []
              end) items.

End Vocabulary.

(** * Proofs *)

(** ** The order of the doubles *)

Lemma SFcompare_rank x y :
  SFcompare x y =
  match rank x, rank y with
  | Some a, Some b => Some (lex_cmp a b)
  | _, _ => None
  end.
Proof.
  destruct x as [[]|[]| |[] m e], y as [[]|[]| |[] m' e']; try reflexivity;
    unfold lex_cmp; simpl.
  all: try (rewrite Z.compare_opp, (Z.compare_antisym e e')).
  all: destruct (e ?= e')%Z; simpl; try reflexivity.
  all: try rewrite Pos.compare_cont_spec; simpl; try reflexivity.
Qed.

Lemma lex_cmp_lt a b : lex_cmp a b = Lt ↔ lex_lt a b.
Proof.
  unfold lex_cmp, lex_lt.
  destruct (Z.compare_spec a.1.1 b.1.1), (Z.compare_spec a.1.2 b.1.2),
    (Z.compare_spec a.2 b.2); split; intros;
    try discriminate; try reflexivity; try lia.
Qed.

Lemma lex_cmp_le a b : lex_cmp a b ≠ Gt ↔ lex_le a b.
Proof.
  unfold lex_cmp, lex_le.
  destruct (Z.compare_spec a.1.1 b.1.1), (Z.compare_spec a.1.2 b.1.2),
    (Z.compare_spec a.2 b.2); split; intros;
    try discriminate; try congruence; try lia.
Qed.

Lemma lt_spec x y :
  Np.lt x y = match rank x, rank y with
              | Some a, Some b => bool_decide (lex_lt a b)
              | _, _ => false
              end.
Proof.
  unfold Np.lt, SFltb. rewrite SFcompare_rank.
  destruct (rank x) as [a|], (rank y) as [b|]; try reflexivity.
  case_bool_decide as Hd; rewrite <- lex_cmp_lt in Hd.
  - by rewrite Hd.
  - by destruct (lex_cmp a b).
Qed.

Lemma le_spec x y :
  Np.le x y = match rank x, rank y with
              | Some a, Some b => bool_decide (lex_le a b)
              | _, _ => false
              end.
Proof.
  unfold Np.le, SFleb. rewrite SFcompare_rank.
  destruct (rank x) as [a|], (rank y) as [b|]; try reflexivity.
  case_bool_decide as Hd; rewrite <- lex_cmp_le in Hd.
  - by destruct (lex_cmp a b).
  - destruct (lex_cmp a b); try reflexivity; exfalso; apply Hd; discriminate.
Qed.

Lemma isnan_spec x : Np.isnan x = bool_decide (rank x = None).
Proof. by destruct x as [[]|[]| |[] m e]. Qed.

Ltac rank_cases x :=
  let r := fresh "r" in
  let E := fresh "E" in
  remember (rank x) as r eqn:E in *; clear E; destruct r as [[[? ?] ?]|].

(** Comparisons of doubles, decided on their ranks. *)
Ltac float_order :=
  unfold within, box, intersect, clip, Np.maximum, Np.minimum, Np.gt, Np.ge
    in *;
  cbn [fst snd] in *;
  change SFltb with Np.lt in *; change SFleb with Np.le in *;
  rewrite ?lt_spec, ?le_spec, ?isnan_spec in *;
  repeat match goal with
         | |- context [if ?b then _ else _] => destruct b eqn:?
         | H : context [if ?b then _ else _] |- _ => destruct b eqn:?
         end;
  rewrite ?lt_spec, ?le_spec, ?isnan_spec in *;
  repeat match goal with
         | |- context [rank ?x] => rank_cases x
         | H : context [rank ?x] |- _ => rank_cases x
         end;
  unfold lex_lt, lex_le in *; simpl in *;
  repeat case_bool_decide; simpl in *;
  try congruence; try lia.







Lemma between_within b x : between b x → within b x.
Proof.
  destruct b as [lo hi]. intros [H1 H2]. simpl in *. split; simpl; float_order.
Qed.





(** ** Reading the store *)

Section Proofs.
Context `{Registries}.

Lemma heap_eta (h : heap) :
  {| objs := objs h; next_id := next_id h; updates := updates h; warned := warned h |} = h.
Proof. by destruct h. Qed.

Lemma get_Parameter_ok h l p :
  objs h !! l = Some (OParameter p) → get_Parameter l h = (Return p, h).
Proof. intros E. unfold get_Parameter, bind, lookup_obj. by rewrite E. Qed.

Lemma get_ndarray_ok h l a :
  objs h !! l = Some (ONdarray a) → get_ndarray l h = (Return a, h).
Proof. intros E. unfold get_ndarray, bind, lookup_obj. by rewrite E. Qed.

Lemma get_Parameters_ok h l c :
  objs h !! l = Some (OParameters c) → get_Parameters l h = (Return c, h).
Proof. intros E. unfold get_Parameters, bind, lookup_obj. by rewrite E. Qed.

Lemma get_Parameterized_ok h l o :
  objs h !! l = Some (OParameterized o) → get_Parameterized l h = (Return o, h).
Proof. intros E. unfold get_Parameterized, bind, lookup_obj. by rewrite E. Qed.

Lemma get_Parameter_inv h l r h' :
  get_Parameter l h = (r, h') →
  h' = h ∧ match r with
           | Return p => objs h !! l = Some (OParameter p)
           | Raise e => e = TypeError
           end.
Proof.
  unfold get_Parameter, bind, lookup_obj, ret, raise.
  destruct (objs h !! l) as [[]|]; intros [= <- <-]; done.
Qed.

Lemma get_ndarray_inv h l r h' :
  get_ndarray l h = (r, h') →
  h' = h ∧ match r with
           | Return a => objs h !! l = Some (ONdarray a)
           | Raise e => e = TypeError
           end.
Proof.
  unfold get_ndarray, bind, lookup_obj, ret, raise.
  destruct (objs h !! l) as [[]|]; intros [= <- <-]; done.
Qed.

Lemma get_Parameters_inv h l r h' :
  get_Parameters l h = (r, h') →
  h' = h ∧ match r with
           | Return c => objs h !! l = Some (OParameters c)
           | Raise e => e = TypeError
           end.
Proof.
  unfold get_Parameters, bind, lookup_obj, ret, raise.
  destruct (objs h !! l) as [[]|]; intros [= <- <-]; done.
Qed.

Lemma get_Parameterized_inv h l r h' :
  get_Parameterized l h = (r, h') →
  h' = h ∧ match r with
           | Return o => objs h !! l = Some (OParameterized o)
           | Raise e => e = TypeError
           end.
Proof.
  unfold get_Parameterized, bind, lookup_obj, ret, raise.
  destruct (objs h !! l) as [[]|]; intros [= <- <-]; done.
Qed.

Lemma bind_inv {A B} (c : py A) (k : A → py B) h r h' :
  bind c k h = (r, h') →
  (∃ a h1, c h = (Return a, h1) ∧ k a h1 = (r, h')) ∨
  (∃ e, c h = (Raise e, h') ∧ r = Raise e).
Proof.
  unfold bind. destruct (c h) as [[a|e] h1]; intros Hk.
  - left. eauto.
  - right. injection Hk as <- <-. eauto.
Qed.

(** broadcasting against a single row *)
Lemma broadcast_single {A B C} (f : A → B → C) xs y :
  Np.broadcast f xs [y] = Some (map (λ x, f x y) xs).
Proof.
  unfold Np.broadcast. destruct xs as [|x [|x' xs]]; simpl; try done.
Qed.

Lemma broadcast_same {A B C} (f : A → B → C) xs ys :
  length xs = length ys → Np.broadcast f xs ys = Some (zip_with f xs ys).
Proof. intros E. unfold Np.broadcast. by rewrite decide_True. Qed.

Lemma any_map_true {A} (f : A → bool) xs :
  Np.any (map f xs) = true ↔ ∃ x, x ∈ xs ∧ f x = true.
Proof.
  unfold Np.any. rewrite existsb_exists. split.
  - intros (b & Hin & Hb). apply in_map_iff in Hin as (x & <- & Hin).
    exists x. split; [by apply list_elem_of_In|done].
  - intros (x & Hin & Hx). exists (f x). split; [|done].
    apply in_map_iff. exists x. split; [done|]. by apply list_elem_of_In.
Qed.

Lemma existsb_fmap {A B} (g : A → B) (f : B → bool) l :
  existsb f (map g l) = existsb (λ x, f (g x)) l.
Proof. induction l as [|x l IH]; simpl; [done|]. by rewrite IH. Qed.

Lemma _outbounds_single b theta :
  _outbounds [b] theta =
  inr (existsb (λ x, Np.lt x b.1) theta || existsb (λ x, Np.gt x b.2) theta).
Proof.
  unfold _outbounds. simpl. rewrite !broadcast_single.
  unfold Np.any. rewrite !existsb_fmap. unfold id. simpl.
  destruct (existsb (λ x, Np.lt x b.1) theta); done.
Qed.

(** ** [blocks] *)

Lemma blocks_loop_fold info a acc :
  blocks_loop info a acc =
  fold_left (λ d r, setdefault_extend d r.1 r.2) (leaf_ranges info a) acc.
Proof.
  revert a acc. induction info as [|[tag size] info IH]; intros a acc; simpl; [done|].
  rewrite IH. do 3 f_equal. lia.
Qed.

Lemma setdefault_extend_in d tag idx :
  tag ∈ d.*1 → NoDup d.*1 →
  setdefault_extend d tag idx =
  (λ kv, (kv.1, if decide (kv.1 = tag) then kv.2 ++ idx else kv.2)) <$> d.
Proof.
  induction d as [|[t l] d IH]; simpl; intros Hin Hnd.
  - by apply elem_of_nil in Hin.
  - apply NoDup_cons in Hnd as [Hnotin Hnd].
    destruct (decide (t = tag)) as [->|Hne].
    + f_equal. symmetry. 
      rewrite <- (list_fmap_id d) at 2. apply list_fmap_ext.
      intros i [t' l'] Hl. simpl. destruct (decide (t' = tag)) as [->|]; [|done].
      exfalso. apply Hnotin. apply list_elem_of_fmap. exists (tag, l'). split; [done|].
      by eapply list_elem_of_lookup_2.
    + f_equal. apply IH; [|done]. apply elem_of_cons in Hin as [|]; [congruence|done].
Qed.

Lemma setdefault_extend_notin d tag idx :
  tag ∉ d.*1 → setdefault_extend d tag idx = d ++ [(tag, idx)].
Proof.
  induction d as [|[t l] d IH]; simpl; intros Hnotin; [done|].
  apply not_elem_of_cons in Hnotin as [Hne Hnotin].
  destruct (decide (t = tag)); [congruence|]. f_equal. by apply IH.
Qed.

Lemma group_cons_eq t idx rs : group t ((t, idx) :: rs) = idx ++ group t rs.
Proof. unfold group. rewrite filter_cons_True; done. Qed.

Lemma group_cons_ne t t0 idx rs : t ≠ t0 → group t ((t0, idx) :: rs) = group t rs.
Proof. intros. unfold group. rewrite filter_cons_False; [done|]. simpl. congruence. Qed.

Lemma fold_setdefault_extend ranges acc :
  NoDup acc.*1 →
  fold_left (λ d r, setdefault_extend d r.1 r.2) ranges acc =
  ((λ kv, (kv.1, kv.2 ++ group kv.1 ranges)) <$> acc) ++
  ((λ t, (t, group t ranges)) <$> filter (λ t, t ∉ acc.*1) (first_seen ranges.*1)).
Proof.
  revert acc. induction ranges as [|[t0 i0] rs IH]; intros acc Hnd; simpl.
  - rewrite app_nil_r. rewrite <- (list_fmap_id acc) at 1. apply list_fmap_ext.
    intros i [t l] _. simpl. unfold group. simpl. by rewrite app_nil_r.
  - destruct (decide (t0 ∈ acc.*1)) as [Hin|Hnotin].
    + assert (Hk : ((λ kv : Z * list nat,
          (kv.1, if decide (kv.1 = t0) then kv.2 ++ i0 else kv.2)) <$> acc).*1
          = acc.*1).
      { rewrite <- list_fmap_compose. apply list_fmap_ext. by intros ? []. }
      rewrite setdefault_extend_in by done.
      rewrite IH by (by rewrite Hk). rewrite Hk.
      rewrite <- list_fmap_compose. f_equal.
      * apply list_fmap_ext. intros i [t l] _. simpl.
        destruct (decide (t = t0)) as [->|Hne].
        -- by rewrite group_cons_eq, app_assoc.
        -- by rewrite group_cons_ne.
      * rewrite filter_cons_False by (intros ?; done).
        rewrite list_filter_filter.
        rewrite (list_filter_iff (λ a, (a ∉ acc.*1) ∧ a ≠ t0) (λ t, t ∉ acc.*1)).
        2:{ intros t. split; [tauto|]. intros Hn. split; [done|]. intros ->. done. }
        apply list_fmap_ext. intros i t Hl. simpl.
        rewrite group_cons_ne; [done|]. intros ->.
        apply list_elem_of_lookup_2, list_elem_of_filter in Hl. tauto.
    + rewrite setdefault_extend_notin by done. rewrite IH.
      2:{ rewrite fmap_app. simpl. apply NoDup_app. split_and!; [done| |apply NoDup_singleton].
          intros x Hx Hx'. apply list_elem_of_singleton in Hx'. congruence. }
      rewrite fmap_app. simpl. rewrite <- app_assoc. f_equal.
      * apply list_fmap_ext. intros i [t l] Hl. simpl.
        rewrite group_cons_ne; [done|]. intros ->. apply Hnotin.
        apply list_elem_of_fmap. exists (t0, l). split; [done|]. by eapply list_elem_of_lookup_2.
      * rewrite filter_cons_True by done. simpl. rewrite group_cons_eq. f_equal.
        rewrite list_filter_filter.
        rewrite (list_filter_iff (λ a, (a ∉ acc.*1) ∧ a ≠ t0) (λ t, t ∉ (acc ++ [(t0, i0)]).*1)).
        2:{ intros t. rewrite fmap_app, not_elem_of_app. simpl. 
            rewrite list_elem_of_singleton. tauto. }
        apply list_fmap_ext. intros i t Hl. simpl.
        rewrite group_cons_ne; [done|]. intros ->.
        apply list_elem_of_lookup_2, list_elem_of_filter in Hl. 
        destruct Hl as [Hl _]. apply Hl. rewrite fmap_app. apply elem_of_app. right. simpl. apply list_elem_of_singleton. done.
Qed.

Lemma blocks_loop_spec info : blocks_loop info 0 [] = blocks_spec info.
Proof.
  rewrite blocks_loop_fold, fold_setdefault_extend by apply NoDup_nil_2.
  simpl. unfold blocks_spec. 
  assert (Hk : (leaf_ranges info 0).*1 = info.*1).
  { generalize 0. induction info as [|[t s] info IH]; intros a; simpl; [done|]. by rewrite IH. }
  rewrite Hk. f_equal. induction (first_seen info.*1) as [|x l IHl]; [done|].
  rewrite filter_cons_True by apply not_elem_of_nil. by rewrite IHl.
Qed.


Lemma leaf_info_reads items h r h' : leaf_info items h = (r, h') → h' = h.
Proof.
  revert r h'. induction items as [|[k l] items IH]; intros r h'; simpl.
  - by intros [= _ <-].
  - intros Hb. apply bind_inv in Hb as [(p & h1 & Hp & Hb)|(e & Hp & _)];
      apply get_Parameter_inv in Hp as [-> Hp]; [|done].
    apply bind_inv in Hb as [(a & h1 & Ha & Hb)|(e & Ha & _)];
      apply get_ndarray_inv in Ha as [-> Ha]; [|done].
    apply bind_inv in Hb as [(rest & h1 & Hr & Hb)|(e & Hr & _)];
      apply IH in Hr as ->; [|done].
    by injection Hb as _ <-.
Qed.

(** ** What computations keep *)

Lemma keeps_ret {A} R `{!Reflexive R} (a : A) : keeps R (ret a).
Proof. by intros h r h' [= _ <-]. Qed.

Lemma keeps_raise {A} R `{!Reflexive R} e : keeps R (raise (A:=A) e).
Proof. by intros h r h' [= _ <-]. Qed.

Lemma keeps_lift {A} R `{!Reflexive R} (x : exn + A) : keeps R (lift x).
Proof. destruct x; [by apply keeps_raise|by apply keeps_ret]. Qed.

Lemma keeps_bind {A B} R `{!Transitive R} (c : py A) (k : A → py B) :
  keeps R c → (∀ a, keeps R (k a)) → keeps R (bind c k).
Proof.
  intros Hc Hk h r h' Hb.
  apply bind_inv in Hb as [(a & h1 & Ha & Hb)|(e & Ha & _)].
  - etrans; [by eapply Hc|by eapply Hk].
  - by eapply Hc.
Qed.

Lemma keeps_lookup_obj R `{!Reflexive R} l : keeps R (lookup_obj l).
Proof.
  intros h r h'. unfold lookup_obj. destruct (objs h !! l); by intros [= _ <-].
Qed.

Lemma keeps_get_ndarray R `{!Reflexive R} l : keeps R (get_ndarray l).
Proof. intros h r h' Hg. by apply get_ndarray_inv in Hg as [-> _]. Qed.
Lemma keeps_get_Parameter R `{!Reflexive R} l : keeps R (get_Parameter l).
Proof. intros h r h' Hg. by apply get_Parameter_inv in Hg as [-> _]. Qed.
Lemma keeps_get_Parameters R `{!Reflexive R} l : keeps R (get_Parameters l).
Proof. intros h r h' Hg. by apply get_Parameters_inv in Hg as [-> _]. Qed.
Lemma keeps_get_Parameterized R `{!Reflexive R} l : keeps R (get_Parameterized l).
Proof. intros h r h' Hg. by apply get_Parameterized_inv in Hg as [-> _]. Qed.

Lemma keeps_updates_store l o : keeps same_updates (store l o).
Proof. by intros h r h' [= _ <-]. Qed.
Lemma keeps_updates_warn m : keeps same_updates (warn m).
Proof. by intros h r h' [= _ <-]. Qed.
Lemma keeps_updates_new_id : keeps same_updates new_id.
Proof. by intros h r h' [= _ <-]. Qed.

Ltac keeps_step :=
  first
    [ apply keeps_bind; [apply _| |intros ?]
    | apply keeps_ret; apply _
    | apply keeps_raise; apply _
    | apply keeps_lift; apply _
    | apply keeps_get_ndarray; apply _
    | apply keeps_get_Parameter; apply _
    | apply keeps_get_Parameters; apply _
    | apply keeps_get_Parameterized; apply _
    | apply keeps_lookup_obj; apply _
    | apply keeps_updates_store
    | apply keeps_updates_warn
    | apply keeps_updates_new_id
    | case_match ].

Lemma keeps_updates_Parameter_set_prior self prior args :
  keeps same_updates (Parameter_set_prior self prior args).
Proof. unfold Parameter_set_prior. repeat keeps_step. Qed.

Lemma keeps_updates_Parameter_set_value self theta tr :
  keeps same_updates (Parameter_set_value self theta tr).
Proof. unfold Parameter_set_value. repeat keeps_step. Qed.

Lemma Parameterized__update_inv self h r h' :
  Parameterized__update self h = (r, h') →
  match r with
  | Return _ => is_Some (objs h !! self) ∧ objs h' = objs h ∧ next_id h' = next_id h ∧
                warned h' = warned h ∧
                updates h' = updates h ++ [(self, objs h)]
  | Raise e => h' = h
  end.
Proof.
  unfold Parameterized__update. intros Hb.
  apply bind_inv in Hb as [(o & h1 & Ho & Hb)|(e & Ho & ->)];
    apply get_Parameterized_inv in Ho as [-> Ho]; [|done].
  injection Hb as <- <-. simpl. rewrite Ho. eauto.
Qed.


(** ** Broadcasting, bounds and [set_prior] *)

Lemma expand_fmap {A B} (f : A → B) ys n : expand (f <$> ys) n = f <$> expand ys n.
Proof. destruct ys as [|y [|y' ys]]; simpl; try done. by rewrite fmap_replicate. Qed.

Lemma length_expand {A} (ys : list A) n :
  length ys = 1 ∨ length ys = n → length (expand ys n) = n.
Proof.
  destruct ys as [|y [|y' ys]]; simpl; intros [?|?]; try done; try lia.
  all: by rewrite length_replicate.
Qed.

Lemma zip_with_replicate_r {A B C} (f : A → B → C) xs y :
  zip_with f xs (replicate (length xs) y) = map (λ x, f x y) xs.
Proof. induction xs as [|x xs IH]; simpl; [done|]. by rewrite IH. Qed.

Lemma broadcast_expand {A B C} (f : A → B → C) xs ys :
  length ys = 1 ∨ length ys = length xs →
  Np.broadcast f xs ys = Some (zip_with f xs (expand ys (length xs))).
Proof.
  intros Hlen. destruct ys as [|y [|y' ys]].
  - destruct Hlen as [Hl|Hl]; simpl in Hl; [lia|].
    symmetry in Hl. apply nil_length_inv in Hl as ->. done.
  - rewrite broadcast_single. simpl. by rewrite zip_with_replicate_r.
  - destruct Hlen as [Hl|Hl]; simpl in Hl; [lia|]. by rewrite broadcast_same.
Qed.

Lemma any_zip_with_false {A B} (f : A → B → bool) xs ys :
  length xs = length ys →
  Np.any (zip_with f xs ys) = false ↔ Forall2 (λ x y, f x y = false) xs ys.
Proof.
  revert ys. induction xs as [|x xs IH]; intros [|y ys] Hlen; try done.
  simpl in Hlen. specialize (IH ys ltac:(lia)).
  rewrite Forall2_cons, <- IH. unfold Np.any. simpl.
  apply orb_false_iff.
Qed.

Lemma Forall2_within theta (rows : list (float * float)) :
  Forall2 (λ x y, Np.lt x y = false) theta rows.*1 ∧
  Forall2 (λ x y, Np.gt x y = false) theta rows.*2
  ↔ Forall2 within rows theta.
Proof.
  revert theta. induction rows as [|r rows IH]; intros theta.
  - split.
    + intros [Hl _]. apply Forall2_nil_inv_r in Hl as ->. constructor.
    + intros Hw. apply Forall2_nil_inv_l in Hw as ->. split; constructor.
  - rewrite !fmap_cons. split.
    + intros [Hl Hg]. apply Forall2_cons_inv_r in Hl as (x & theta' & Hx & Hl & ->).
      apply Forall2_cons_1 in Hg as [Hx' Hg]. constructor; [done|].
      apply IH. done.
    + intros Hw. apply Forall2_cons_inv_l in Hw as (x & theta' & [Hx Hx'] & Hw & ->).
      apply IH in Hw as [Hl Hg]. split; by constructor.
Qed.

Lemma any_within theta (rows : list (float * float)) :
  length rows = length theta →
  Np.any (zip_with Np.lt theta rows.*1)
    || Np.any (zip_with Np.gt theta rows.*2) = false
  ↔ Forall2 within rows theta.
Proof.
  intros Hlen. rewrite orb_false_iff, !any_zip_with_false by (by rewrite length_fmap).
  apply Forall2_within.
Qed.

Lemma _outbounds_expand bounds theta :
  length bounds = 1 ∨ length bounds = length theta →
  ∃ o, _outbounds bounds theta = inr o ∧ (o = false ↔ inside bounds theta).
Proof.
  intros Hlen. unfold _outbounds, inside.
  rewrite !broadcast_expand by (by rewrite length_fmap).
  rewrite !expand_fmap.
  pose proof (length_expand bounds (length theta) Hlen) as Hl.
  pose proof (any_within theta _ Hl) as Hw.
  destruct (Np.any (zip_with Np.lt theta (expand bounds (length theta)).*1));
    eexists; (split; [reflexivity|]); simpl in Hw; by rewrite <- Hw.
Qed.





Lemma tile_expand (d : float * float) (pb : list (float * float)) n :
  n = length pb →
  expand (if decide (1 < length pb) then replicate (length pb) d else [d]) n
  = replicate n d.
Proof.
  intros ->. case_decide as Hk; [|done].
  destruct pb as [|r [|r' pb]]; simpl in *; try lia. done.
Qed.

Lemma Forall2_replicate_l {A B} (P : A → B → Prop) x ys :
  Forall2 P (replicate (length ys) x) ys ↔ Forall (P x) ys.
Proof.
  induction ys as [|y ys IH]; simpl.
  - split; constructor.
  - rewrite Forall2_cons, Forall_cons, IH. done.
Qed.

Lemma support_check (d : float * float) (pb : list (float * float)) xs :
  length xs = length pb →
  ∃ o, _outbounds (if decide (1 < length pb)
                   then replicate (length pb) d else [d]) xs = inr o ∧
       (o = false ↔ Forall (within d) xs).
Proof.
  intros Hlen.
  destruct (_outbounds_expand
              (if decide (1 < length pb) then replicate (length pb) d else [d])
              xs) as (o & Ho & Hiff).
  - case_decide; [right|left]; [|done]. by rewrite length_replicate.
  - exists o. split; [done|]. rewrite Hiff. unfold inside.
    rewrite tile_expand by done. apply Forall2_replicate_l.
Qed.





(** ** What computations raise *)

Lemma raises_only_ret {A} P (a : A) : raises_only P (ret a).
Proof. by intros h e h' [=]. Qed.

Lemma raises_only_raise {A} (P : exn → Prop) e : P e → raises_only P (raise (A:=A) e).
Proof. by intros He h e' h' [= <- _]. Qed.

Lemma raises_only_lift {A} (P : exn → Prop) (x : exn + A) :
  (∀ e, x = inl e → P e) → raises_only P (lift x).
Proof. destruct x; intros Hx h e' h' [= <- _]. by apply Hx. Qed.

Lemma raises_only_bind {A B} P (c : py A) (k : A → py B) :
  raises_only P c → (∀ a, raises_only P (k a)) → raises_only P (bind c k).
Proof.
  intros Hc Hk h e h' Hb.
  apply bind_inv in Hb as [(a & h1 & Ha & Hb)|(e' & Ha & [= ->])].
  - by eapply Hk.
  - by eapply Hc.
Qed.

Lemma raises_only_get_ndarray (P : exn → Prop) l :
  P TypeError → raises_only P (get_ndarray l).
Proof. intros HP h e h' Hg. by apply get_ndarray_inv in Hg as [_ ->]. Qed.
Lemma raises_only_get_Parameter (P : exn → Prop) l :
  P TypeError → raises_only P (get_Parameter l).
Proof. intros HP h e h' Hg. by apply get_Parameter_inv in Hg as [_ ->]. Qed.
Lemma raises_only_store P l o : raises_only P (store l o).
Proof. by intros h e h' [=]. Qed.
Lemma raises_only_warn P m : raises_only P (warn m).
Proof. by intros h e h' [=]. Qed.

Lemma _outbounds_error bounds theta e :
  _outbounds bounds theta = inl e → e = ValueError msg_broadcast.
Proof. unfold _outbounds. repeat case_match; congruence. Qed.

Lemma np_clip_error v lo hi e :
  np_clip v lo hi = inl e → e = ValueError msg_broadcast.
Proof. unfold np_clip. repeat case_match; congruence. Qed.

Lemma np_c__error {A} (xs ys : list A) e :
  np_c_ xs ys = inl e →
  e = ValueError "all the input array dimensions must match".
Proof. unfold np_c_. case_match; congruence. Qed.

Ltac raises_step :=
  first
    [ apply raises_only_get_ndarray; done
    | apply raises_only_get_Parameter; done
    | apply raises_only_bind; [|intros ?]
    | apply raises_only_ret
    | apply raises_only_store
    | apply raises_only_warn
    | apply raises_only_raise; done
    | apply raises_only_lift;
      let e := fresh "e" in let E := fresh "E" in
      intros e E;
      first [ apply _outbounds_error in E
            | apply np_clip_error in E
            | apply np_c__error in E ]; subst e; done
    | case_match ].

(** ** The test of [set_prior] *)

Lemma set_prior_check_run (h : heap) (self : loc)
    (p : Parameter') (name : string) (make : PriorArgs → exn + Prior)
    (args : PriorArgs) (pr : Prior) (d : float * float) :
  objs h !! self = Some (OParameter p) →
  PRIORS name = Some make → make args = inr pr →
  BOUNDS (domain p) = Some d →
  (¬ Forall (λ r, within d r.1 ∧ within d r.2) (prior_bounds pr) →
   Parameter_set_prior self (Some name) args h
     = (Raise (ValueError msg_outside_domain), h)) ∧
  (Forall (λ r, within d r.1 ∧ within d r.2) (prior_bounds pr) →
   (Parameter_set_prior self (Some name) args h).1
     ≠ Raise (ValueError msg_outside_domain)).
Proof.
  intros Hp Hname Hmake Hd.
  destruct (support_check d (prior_bounds pr) (prior_bounds pr).*1)
    as (o1 & Ho1 & Hiff1); [by rewrite length_fmap|].
  destruct (support_check d (prior_bounds pr) (prior_bounds pr).*2)
    as (o2 & Ho2 & Hiff2); [by rewrite length_fmap|].
  assert (Hex : Forall (λ r, within d r.1 ∧ within d r.2) (prior_bounds pr)
                ↔ o1 = false ∧ o2 = false).
  { rewrite Hiff1, Hiff2, !Forall_fmap. split.
    - intros Hf. split; (eapply Forall_impl; [exact Hf|]); by intros ? [? ?].
    - intros [F1 F2]. rewrite Forall_forall in F1, F2.
      apply Forall_forall. intros r Hr. split; [by apply F1|by apply F2]. }
  destruct (Parameter_set_prior self (Some name) args h) as [r h'] eqn:E.
  simpl. revert E.
  unfold Parameter_set_prior. unfold bind at 1.
  rewrite (get_Parameter_ok _ _ _ Hp), Hname. unfold bind at 1.
  rewrite Hmake. simpl. rewrite Hd.
  unfold bind at 1. rewrite Ho1. simpl.
  destruct o1; simpl.
  { intros [= <- <-]. split; [done|]. intros Hf. by apply Hex in Hf as [? _]. }
  unfold bind at 1. rewrite Ho2. simpl.
  destruct o2; simpl.
  { intros [= <- <-]. split; [done|]. intros Hf. by apply Hex in Hf as [_ ?]. }
  intros E. split; [intros Hn; exfalso; by apply Hn, Hex|].
  intros _ ->. revert E.
  match goal with |- ?c h = _ → _ =>
    cut (raises_only (λ e, e ≠ ValueError msg_outside_domain) c) end.
  { intros Hr E. by apply Hr in E. }
  repeat raises_step.
Qed.

(** ** Clipping and the invariant of a leaf *)

Lemma flat_assign_same {A} (l : list A) : Np.flat_assign l l = l.
Proof.
  unfold Np.flat_assign. destruct l as [|s0 l0] eqn:E; [done|]. rewrite <- E.
  apply list_eq. intros i. rewrite list_lookup_imap.
  destruct (l !! i) as [x|] eqn:Hi; simpl; [|done].
  rewrite Nat.mod_small by (by eapply lookup_lt_Some). by rewrite Hi.
Qed.

Lemma flat_assign_full {A} (dst src : list A) :
  length src = length dst → Np.flat_assign dst src = src.
Proof.
  intros Hlen. unfold Np.flat_assign. destruct src as [|s0 src0] eqn:E.
  - symmetry in Hlen. by apply nil_length_inv in Hlen.
  - rewrite <- E in *. apply list_eq. intros i. rewrite list_lookup_imap.
    destruct (dst !! i) as [x|] eqn:Hi; simpl.
    + apply lookup_lt_Some in Hi. rewrite Nat.mod_small by lia.
      destruct (src !! i) eqn:Hs; [done|].
      apply lookup_ge_None in Hs. lia.
    + apply lookup_ge_None in Hi. symmetry. apply lookup_ge_None. lia.
Qed.




Lemma intersect_nan d r :
  Np.isnan d.1 = false → Np.isnan d.2 = false →
  Np.isnan r.1 = false → Np.isnan r.2 = false →
  Np.isnan (intersect d r).1 = false ∧ Np.isnan (intersect d r).2 = false.
Proof. intros. unfold intersect. simpl. split; float_order. Qed.


Lemma Parameter_set_value_inv self p theta transformed h h' :
  objs h !! self = Some (OParameter p) →
  Parameter_set_value self theta transformed h = (Return (), h') →
  let theta' :=
    if transformed then map (get_inverse (transform p)) theta else theta in
  ∃ a,
    objs h !! value p = Some (ONdarray a) ∧
    _outbounds (bounds p) theta' = inr false ∧
    objs h' = <[value p := ONdarray (Np.Ndarray (Np.shape a)
                              (Np.flat_assign (Np.data a) theta'))]> (objs h).
Proof.
  intros Hp. unfold Parameter_set_value, bind.
  rewrite (get_Parameter_ok _ _ _ Hp). simpl.
  destruct (_outbounds _ _) as [e|[]] eqn:Eo; simpl; try by intros [=].
  destruct (get_ndarray (value p) h) as [[a|e] h1] eqn:Ea; [|by intros [=]].
  apply get_ndarray_inv in Ea as [-> Ea].
  unfold store. intros [= <-]. simpl. exists a. done.
Qed.

Lemma Parameter_size_inv self h n :
  Parameter_size self h = (Return n, h) →
  ∃ p a, objs h !! self = Some (OParameter p) ∧
         objs h !! value p = Some (ONdarray a) ∧ n = length (Np.data a).
Proof.
  unfold Parameter_size, bind.
  destruct (get_Parameter self h) as [[p|e] h1] eqn:Ep; [|by intros [=]].
  apply get_Parameter_inv in Ep as [-> Ep].
  destruct (get_ndarray (value p) h) as [[a|e] h1] eqn:Ea; [|by intros [=]].
  apply get_ndarray_inv in Ea as [-> Ea].
  intros [= <-]. eauto.
Qed.









(** ** The claims *)

(** C9 (amended).  For every container, [blocks] groups the indices of the
    flattened vector by block tag: each leaf contributes the consecutive
    range at its offset in flattening order, a group gathers the ranges of
    its tag in that order, and the groups come in the order in which the
    tags are first seen.  For leaves of sizes 2, 1, 3 with the tags 0, 1,
    0 the groups are 0: [0, 1, 3, 4, 5] and 1: [2]. *)
Theorem blocks_groups_by_tag (h : heap) (self : loc) (c : Parameters')
    (info : list (Z * nat)) :
  objs h !! self = Some (OParameters c) →
  (leaf_info (params c) h).1 = Return info →
  Parameters_blocks_dict self h = (Return (blocks_spec info), h) ∧
  Parameters_blocks self h = (Return ((blocks_spec info).*2), h) ∧
  (info.*2 = [2; 1; 3] → info.*1 = [0; 1; 0]%Z →
   blocks_spec info = [(0%Z, [0; 1; 3; 4; 5]); (1%Z, [2])]).
Proof.
  intros Hc Hinfo.
  assert (Hd : Parameters_blocks_dict self h = (Return (blocks_spec info), h)).
  { unfold Parameters_blocks_dict, bind. rewrite (get_Parameters_ok _ _ _ Hc).
    destruct (leaf_info (params c) h) as [r h1] eqn:E.
    pose proof (leaf_info_reads _ _ _ _ E) as ->. simpl in Hinfo. subst r.
    unfold ret. by rewrite blocks_loop_spec. }
  split; [done|]. split.
  - unfold Parameters_blocks, bind. by rewrite Hd.
  - intros Hs Ht. destruct info as [|[t0 s0] [|[t1 s1] [|[t2 s2] [|]]]]; try discriminate.
    simpl in Hs, Ht. by injection Hs as -> -> ->; injection Ht as -> -> ->.
Qed.

Lemma outside_single b theta :
  (∃ x, x ∈ theta ∧ (Np.lt x b.1 = true ∨ Np.gt x b.2 = true)) →
  _outbounds [b] theta = inr true.
Proof.
  intros (x & Hin & Hx). rewrite _outbounds_single. f_equal.
  apply orb_true_iff. destruct Hx as [Hx|Hx]; [left|right];
    apply existsb_exists; exists x; (split; [by apply list_elem_of_In|done]).
Qed.

Lemma Parameter_init_outside h value domain prior block a t b :
  heap_ok h → objs h !! value = Some (ONdarray a) →
  TRANSFORMS domain = Some t → BOUNDS domain = Some b →
  (∃ x, x ∈ Np.data a ∧ (Np.lt x b.1 = true ∨ Np.gt x b.2 = true)) →
  Parameter_init value domain prior block h =
    (Raise (ValueError msg_outside_bounds),
     {| objs := <[next_id h := OParameter {| value := value; prior := prior;
                   block := block; domain := domain; transform := t;
                   bounds := [b] |}]> (objs h);
        next_id := S (next_id h); updates := updates h; warned := warned h |}).
Proof.
  intros Hok Ha Ht Hb Hout.
  assert (value ≠ next_id h) as Hne.
  { intros ->. specialize (Hok (next_id h) (mk_is_Some _ _ Ha)). lia. }
  unfold Parameter_init, bind, new_id. rewrite Ht, Hb. unfold store. simpl.
  erewrite get_ndarray_ok by (simpl; rewrite lookup_insert_ne; [exact Ha|done]).
  unfold Parameter_set_value, bind.
  erewrite get_Parameter_ok by (simpl; apply lookup_insert_eq).
  simpl. rewrite (outside_single _ _ Hout). reflexivity.
Qed.

(** C10.  Constructing a leaf whose initial value has a component strictly
    outside the box of its domain raises the domain-violation error and
    does not clip: the array keeps the value it was given.  So does the
    declaration of a parameter by an owner, which leaves the dictionary of
    the owner's container as it was. *)
Theorem Parameter_init_raises_outside_domain (domain : Domain)
    (t : Transform) (b : float * float) :
  TRANSFORMS domain = Some t → BOUNDS domain = Some b →
  (∀ h value a prior block,
     heap_ok h → objs h !! value = Some (ONdarray a) →
     (∃ x, x ∈ Np.data a ∧ (Np.lt x b.1 = true ∨ Np.gt x b.2 = true)) →
     ∃ h', Parameter_init value domain prior block h
             = (Raise (ValueError msg_outside_bounds), h') ∧
           objs h' !! value = Some (ONdarray a)) ∧
  (∀ h self o c name param shape,
     heap_ok h → objs h !! self = Some (OParameterized o) →
     objs h !! self_params o = Some (OParameters c) →
     let arr := Np.atleast (length shape) param in
     Np.shape arr = resolve_shape shape (Np.shape arr) [] →
     (∃ x, x ∈ Np.data param ∧ (Np.lt x b.1 = true ∨ Np.gt x b.2 = true)) →
     ∃ h', Parameterized__register self name param domain shape h
             = (Raise (ValueError msg_outside_bounds), h') ∧
           objs h' !! next_id h = Some (ONdarray arr) ∧
           objs h' !! self_params o = Some (OParameters c)).
Proof.
  intros Ht Hb. split.
  - intros h value a prior block Hok Ha Hout.
    eexists. split; [by eapply Parameter_init_outside|]. simpl.
    rewrite lookup_insert_ne; [done|].
    intros <-. specialize (Hok _ (mk_is_Some _ _ Ha)). lia.
  - intros h self o c name param shape Hok Ho Hc arr Hshape Hout.
    assert (self ≠ next_id h) as Hne.
    { intros ->. specialize (Hok _ (mk_is_Some _ _ Ho)). lia. }
    assert (self_params o ≠ next_id h ∧ self_params o ≠ S (next_id h)) as [Hne1 Hne2].
    { specialize (Hok _ (mk_is_Some _ _ Hc)). lia. }
    unfold Parameterized__register, alloc, bind, new_id, store, ret. simpl.
    erewrite get_ndarray_ok by (simpl; apply lookup_insert_eq).
    fold arr. rewrite decide_True by done.
    erewrite get_Parameterized_ok by (simpl; rewrite lookup_insert_ne; [exact Ho|done]).
    erewrite Parameter_init_outside; [| |simpl; apply lookup_insert_eq|done..].
    2:{ intros l. simpl. intros Hl. apply lookup_insert_is_Some in Hl as [<-|[_ Hl]]; [lia|].
        apply Hok in Hl. lia. }
    simpl. eexists. split; [reflexivity|]. simpl.
    rewrite lookup_insert_ne by lia. rewrite lookup_insert_eq.
    rewrite !lookup_insert_ne by done. done.
Qed.


(** C8.  For every leaf whose value lies inside its bounds,
    [set_value(get_value())] in natural space returns normally and leaves
    the store, hence the value, exactly as it was. *)
Theorem set_value_get_value_idempotent (h : heap) (self : loc)
    (p : Parameter') (a : ndarray) :
  objs h !! self = Some (OParameter p) →
  objs h !! value p = Some (ONdarray a) →
  _outbounds (bounds p) (Np.data a) = inr false →
  (do v <- Parameter_get_value self false; Parameter_set_value self v false) h
    = (Return (), h) ∧
  Parameter_get_value self false h = (Return (Np.data a), h).
Proof.
  intros Hp Ha Hin.
  assert (Hg : Parameter_get_value self false h = (Return (Np.data a), h)).
  { unfold Parameter_get_value, bind.
    by rewrite (get_Parameter_ok _ _ _ Hp), (get_ndarray_ok _ _ _ Ha). }
  split; [|done]. unfold bind at 1. rewrite Hg.
  unfold Parameter_set_value, bind.
  rewrite (get_Parameter_ok _ _ _ Hp). simpl. rewrite Hin. simpl.
  rewrite (get_ndarray_ok _ _ _ Ha). unfold store. f_equal.
  rewrite flat_assign_same. destruct a as [sh d]. simpl.
  rewrite insert_id by done. apply heap_eta.
Qed.

(** C6 (amended).  On a container with more than one leaf [set_prior]
    raises the ambiguous-target error and changes nothing; with exactly one
    leaf it delegates to that leaf and then calls the hook of the owner;
    with no leaf it raises nothing and only calls the hook.  The hook is
    called once, last, and only when [set_prior] returns normally. *)
Theorem Parameters_set_prior_by_leaf_count (h : heap) (self : loc)
    (c : Parameters') (prior : option string) (args : PriorArgs) :
  objs h !! self = Some (OParameters c) →
  match params c with
  | [] =>
    Parameters_set_prior self prior args h = Parameterized__update (obj c) h
  | [(_, leaf)] =>
    Parameters_set_prior self prior args h =
    (Parameter_set_prior leaf prior args;; Parameterized__update (obj c)) h
  | _ =>
    Parameters_set_prior self prior args h = (Raise (RuntimeError msg_several), h)
  end ∧
  ∀ r h', Parameters_set_prior self prior args h = (r, h') →
    match r with
    | Return _ => length (params c) ≤ 1 ∧
                  updates h' = updates h ++ [(obj c, objs h')]
    | Raise _ => updates h' = updates h
    end.
Proof.
  intros Hc.
  assert (Hshape :
    match params c with
    | [] =>
      Parameters_set_prior self prior args h = Parameterized__update (obj c) h
    | [(_, leaf)] =>
      Parameters_set_prior self prior args h =
      (Parameter_set_prior leaf prior args;; Parameterized__update (obj c)) h
    | _ =>
      Parameters_set_prior self prior args h = (Raise (RuntimeError msg_several), h)
    end).
  { destruct (params c) as [|[k leaf] [|kv rest]] eqn:E;
      unfold Parameters_set_prior; unfold bind at 1;
      rewrite (get_Parameters_ok _ _ _ Hc), E; done. }
  split; [done|]. intros r h' Hrun.
  destruct (params c) as [|[k leaf] [|kv rest]]; simpl; rewrite Hshape in Hrun.
  - apply Parameterized__update_inv in Hrun. destruct r; [|by subst].
    destruct Hrun as (_ & -> & _ & _ & ->). split; [lia|done].
  - apply bind_inv in Hrun as [([] & h1 & Hleaf & Hup)|(e & Hleaf & ->)].
    + apply keeps_updates_Parameter_set_prior in Hleaf.
      apply Parameterized__update_inv in Hup. destruct r.
      * destruct Hup as (_ & -> & _ & _ & ->). split; [lia|]. by rewrite Hleaf.
      * by subst.
    + by apply keeps_updates_Parameter_set_prior in Hleaf.
  - by injection Hrun as <- <-.
Qed.

(** C2 (amended).  For every leaf and every prior, [set_prior] fails with
    the domain-mismatch error exactly when some end of some row of the
    support of the prior lies strictly outside the box of the domain, that
    is, unless the support is contained in the domain; the failure leaves
    the store as it was.  A support that only overlaps the domain is
    refused. *)
Theorem set_prior_domain_mismatch_iff (h : heap) (self : loc)
    (p : Parameter') (name : string) (make : PriorArgs → exn + Prior)
    (args : PriorArgs) (pr : Prior) (d : float * float) :
  objs h !! self = Some (OParameter p) →
  PRIORS name = Some make → make args = inr pr →
  BOUNDS (domain p) = Some d →
  ((Parameter_set_prior self (Some name) args h).1
     = Raise (ValueError msg_outside_domain)
   ↔ ∃ r, r ∈ prior_bounds pr ∧ ¬ (within d r.1 ∧ within d r.2)) ∧
  ((Parameter_set_prior self (Some name) args h).1
     = Raise (ValueError msg_outside_domain) →
   (Parameter_set_prior self (Some name) args h).2 = h).
Proof.
  intros Hp Hname Hmake Hd.
  destruct (set_prior_check_run h self p name make args pr d Hp Hname Hmake Hd)
    as [Hfail Hpass].
  destruct (decide (Forall (λ r, within d r.1 ∧ within d r.2)
                           (prior_bounds pr))) as [Hf|Hf].
  - specialize (Hpass Hf). split; [|done]. split; [done|].
    intros (r & Hin & Hout). exfalso. apply Hout.
    rewrite Forall_forall in Hf. by apply Hf.
  - rewrite (Hfail Hf). simpl. split; [|done]. split; [|done]. intros _.
    apply not_Forall_Exists in Hf; [|intros r; apply _].
    by apply Exists_exists in Hf.
Qed.




(** ** Container [set_value] *)

Lemma keeps_values_Parameter_set_value self theta tr :
  keeps values_only (Parameter_set_value self theta tr).
Proof.
  intros h r h'. unfold Parameter_set_value. intros Hb.
  apply bind_inv in Hb as [(p & h1 & Hp & Hb)|(e & Hp & _)];
    apply get_Parameter_inv in Hp as [-> Hp]; [|reflexivity].
  apply bind_inv in Hb as [(o & h1 & Ho & Hb)|(e & Ho & _)].
  2:{ apply (keeps_lift eq) in Ho. by subst. }
  apply (keeps_lift eq) in Ho. subst h1.
  destruct o; [injection Hb as _ <-; reflexivity|].
  apply bind_inv in Hb as [(a & h1 & Ha & Hb)|(e & Ha & _)];
    apply get_ndarray_inv in Ha as [-> Ha]; [|reflexivity].
  injection Hb as _ <-. split_and!; try done. simpl. intros l.
  destruct (decide (l = value p)) as [->|Hne].
  - rewrite Ha, lookup_insert_eq. eexists. split; [done|]. simpl. split; [done|].
    unfold Np.flat_assign. destruct (if tr then _ else _); [done|].
    by rewrite length_imap.
  - rewrite lookup_insert_ne by done.
    destruct (objs h !! l) as [[]|]; eauto.
Qed.

Lemma leaf_info_values_only items h h' :
  values_only h h' → (leaf_info items h').1 = (leaf_info items h).1.
Proof.
  intros (_ & _ & _ & Hl). induction items as [|[k l] items IH]; simpl; [done|].
  unfold bind, get_Parameter, get_ndarray, bind, lookup_obj, ret, raise.
  pose proof (Hl l) as Hll.
  destruct (objs h !! l) as [[a|p| |]|] eqn:E.
  - destruct Hll as (a' & -> & _). done.
  - rewrite Hll. pose proof (Hl (value p)) as Hv.
    destruct (objs h !! value p) as [[a| | |]|] eqn:Ev;
      [destruct Hv as (a' & -> & _ & Hlen)|rewrite Hv; done..].
    destruct (leaf_info items h') as [r1 h1], (leaf_info items h) as [r2 h2].
    simpl in IH. subst r2. destruct r1; simpl; [|done]. by rewrite Hlen.
  - by rewrite Hll.
  - by rewrite Hll.
  - by rewrite Hll.
Qed.

Lemma leaf_info_cons_inv k l items h info :
  (leaf_info ((k, l) :: items) h).1 = Return info →
  ∃ p a info',
    objs h !! l = Some (OParameter p) ∧
    objs h !! value p = Some (ONdarray a) ∧
    (leaf_info items h).1 = Return info' ∧
    info = (block p, length (Np.data a)) :: info'.
Proof.
  simpl. unfold bind.
  destruct (get_Parameter l h) as [[p|e] h1] eqn:Ep; [|done].
  apply get_Parameter_inv in Ep as [-> Ep].
  destruct (get_ndarray (value p) h) as [[a|e] h1] eqn:Ea; [|done].
  apply get_ndarray_inv in Ea as [-> Ea].
  destruct (leaf_info items h) as [[info'|e] h1] eqn:Ei; [|done].
  simpl. intros [= <-]. eauto 10.
Qed.

Lemma set_value_loop_slices items theta tr a h info :
  (leaf_info items h).1 = Return info →
  set_value_loop items theta tr a h
  = assign_slices items.*2 (partition_slices info.*2 (drop a theta)) tr h.
Proof.
  revert a h info. induction items as [|[k l] items IH]; intros a h info Hinfo.
  - simpl in Hinfo. injection Hinfo as <-. done.
  - apply leaf_info_cons_inv in Hinfo as (p & arr & info' & Hp & Ha & Hi & ->).
    simpl. unfold bind at 1. unfold Parameter_size, bind at 1.
    rewrite (get_Parameter_ok _ _ _ Hp). unfold bind at 1.
    rewrite (get_ndarray_ok _ _ _ Ha). unfold ret at 1.
    unfold slice. replace (a + length (Np.data arr) - a) with (length (Np.data arr)) by lia.
    unfold bind.
    destruct (Parameter_set_value l _ tr h) as [[[]|e] h1] eqn:Es; [|done].
    rewrite drop_drop. apply IH.
    apply keeps_values_Parameter_set_value in Es.
    by rewrite (leaf_info_values_only _ _ _ Es).
Qed.

Lemma keeps_updates_set_value_loop items theta tr a :
  keeps same_updates (set_value_loop items theta tr a).
Proof.
  revert a. induction items as [|[k l] items IH]; intros a; simpl.
  - apply keeps_ret. apply _.
  - apply keeps_bind; [apply _| |intros size].
    + unfold Parameter_size. repeat keeps_step.
    + apply keeps_bind; [apply _| |intros ?]; [|apply IH].
      apply keeps_updates_Parameter_set_value.
Qed.

Lemma Parameters_size_ok self c info h :
  objs h !! self = Some (OParameters c) →
  (leaf_info (params c) h).1 = Return info →
  Parameters_size self h = (Return (sum_list info.*2), h).
Proof.
  intros Hc Hinfo. unfold Parameters_size, bind.
  rewrite (get_Parameters_ok _ _ _ Hc).
  destruct (leaf_info (params c) h) as [r h1] eqn:E.
  pose proof (leaf_info_reads _ _ _ _ E) as ->. simpl in Hinfo. by subst r.
Qed.

(** C5.  For a container [self] whose leaves have the sizes [info.*2], of
    total [n]: [set_value] with an array that is not a vector of [n]
    elements raises the shape-mismatch error and leaves the store as it
    was, the log of the hook included.  With a vector [theta] of [n]
    elements it is the computation of the specification: [theta] is cut
    into consecutive slices in the order of the leaves, slice [i] is given
    to leaf [i] through the [set_value] of the leaf, then the hook of the
    owner is called; when it returns the log of the hook has exactly one
    more entry, for the owner, and that entry holds the final store (the
    hook saw every leaf updated); when it raises the log is as before. *)
Theorem Parameters_set_value_slices (h : heap) (self : loc)
    (c : Parameters') (info : list (Z * nat)) (transformed : bool) :
  objs h !! self = Some (OParameters c) →
  (leaf_info (params c) h).1 = Return info →
  let n := sum_list info.*2 in
  (∀ theta : ndarray,
     Np.shape (Np.atleast 1 theta) ≠ [n] →
     Parameters_set_value self theta transformed h
       = (Raise (ValueError msg_number), h)) ∧
  (∀ theta : list float,
     length theta = n →
     Parameters_set_value self (Np.Ndarray [n] theta) transformed h
       = set_value_spec (obj c) (params c).*2 info.*2 theta transformed h ∧
     ∀ r h',
       Parameters_set_value self (Np.Ndarray [n] theta) transformed h
         = (r, h') →
       match r with
       | Return _ => updates h' = updates h ++ [(obj c, objs h')]
       | Raise _ => updates h' = updates h
       end).
Proof.
  intros Hc Hinfo n.
  pose proof (Parameters_size_ok _ _ _ _ Hc Hinfo) as Hsize. fold n in Hsize.
  split.
  - intros theta Hshape. unfold Parameters_set_value, bind.
    rewrite Hsize. by rewrite decide_False.
  - intros theta Hlen.
    assert (Hrun : Parameters_set_value self (Np.Ndarray [n] theta) transformed h
       = set_value_spec (obj c) (params c).*2 info.*2 theta transformed h).
    { unfold Parameters_set_value, set_value_spec. unfold bind at 1.
      rewrite Hsize. simpl. rewrite decide_True by done.
      unfold bind at 1. rewrite (get_Parameters_ok _ _ _ Hc).
      unfold bind. by rewrite (set_value_loop_slices _ _ _ _ _ _ Hinfo). }
    split; [done|]. intros r h' Hr.
    unfold Parameters_set_value in Hr. unfold bind at 1 in Hr.
    rewrite Hsize in Hr. simpl in Hr. rewrite decide_True in Hr by done.
    unfold bind at 1 in Hr. rewrite (get_Parameters_ok _ _ _ Hc) in Hr.
    apply bind_inv in Hr as [([] & h1 & Hloop & Hup)|(e & Hloop & ->)].
    + apply keeps_updates_set_value_loop in Hloop.
      apply Parameterized__update_inv in Hup. destruct r.
      * destruct Hup as (_ & -> & _ & _ & ->). by rewrite Hloop.
      * by subst.
    + by apply keeps_updates_set_value_loop in Hloop.
Qed.


Lemma fails_clean_reads {A} (c : py A) : keeps eq c → fails_clean c.
Proof. intros Hc h e h' Hr _. symmetry. by eapply Hc. Qed.

Lemma fails_clean_raise {A} e : fails_clean (raise (A:=A) e).
Proof. by intros h e' h' [= _ <-]. Qed.

Lemma fails_clean_other {A} (c : py A) :
  raises_only (λ e, ¬ failure e) c → fails_clean c.
Proof. intros Hc h e h' Hr Hf. by apply Hc in Hr. Qed.

Lemma fails_clean_bind_reads {A B} (c : py A) (k : A → py B) :
  keeps eq c → (∀ a, fails_clean (k a)) → fails_clean (bind c k).
Proof.
  intros Hc Hk h e h' Hb Hf.
  apply bind_inv in Hb as [(a & h1 & Ha & Hb)|(e' & Ha & [= ->])].
  - apply Hc in Ha as ->. by eapply Hk.
  - symmetry. by eapply Hc.
Qed.

Lemma fails_clean_bind_other {A B} (c : py A) (k : A → py B) :
  fails_clean c → (∀ a, raises_only (λ e, ¬ failure e) (k a)) →
  fails_clean (bind c k).
Proof.
  intros Hc Hk h e h' Hb Hf.
  apply bind_inv in Hb as [(a & h1 & Ha & Hb)|(e' & Ha & [= ->])].
  - by apply Hk in Hb.
  - by eapply Hc.
Qed.

Lemma not_failure_TypeError : ¬ failure TypeError.
Proof. inversion 1. Qed.
Lemma not_failure_KeyError : ¬ failure KeyError.
Proof. inversion 1. Qed.
Lemma not_failure_broadcast : ¬ failure (ValueError msg_broadcast).
Proof. inversion 1. Qed.
Lemma not_failure_dimensions :
  ¬ failure (ValueError "all the input array dimensions must match").
Proof. inversion 1. Qed.
Lemma not_failure_unknown_type : ¬ failure (ValueError msg_unknown_type).
Proof. inversion 1. Qed.


Lemma raises_only_impl {A} (P Q : exn → Prop) (c : py A) :
  (∀ e, P e → Q e) → raises_only P c → raises_only Q c.
Proof. intros HPQ Hc h e h' Hr. by eapply HPQ, Hc. Qed.

Lemma raises_only_new_id P : raises_only P new_id.
Proof. by intros h e h' [=]. Qed.

Lemma raises_only_alloc P o : raises_only P (alloc o).
Proof.
  unfold alloc. apply raises_only_bind; [apply raises_only_new_id|intros l].
  apply raises_only_bind; [apply raises_only_store|intros ?].
  apply raises_only_ret.
Qed.

Lemma raises_only_update (P : exn → Prop) o :
  P TypeError → raises_only P (Parameterized__update o).
Proof.
  intros HP h e h'. unfold Parameterized__update. intros Hb.
  apply bind_inv in Hb as [(x & h1 & Hx & Hb)|(e' & Hx & [= ->])].
  - done.
  - by apply get_Parameterized_inv in Hx as [_ ->].
Qed.

Ltac not_failure := first [done | by inversion 1].

Ltac quiet_step :=
  first
    [ apply raises_only_get_ndarray; not_failure
    | apply raises_only_get_Parameter; not_failure
    | apply raises_only_update; not_failure
    | apply raises_only_alloc
    | apply raises_only_bind; [|intros ?]
    | apply raises_only_ret
    | apply raises_only_store
    | apply raises_only_warn
    | apply raises_only_raise; not_failure
    | apply raises_only_lift;
      let e := fresh "e" in let E := fresh "E" in
      intros e E;
      first [ apply _outbounds_error in E
            | apply np_clip_error in E
            | apply np_c__error in E ]; subst e; not_failure
    | case_match ].

Ltac clean_step :=
  first
    [ apply fails_clean_raise
    | apply fails_clean_bind_reads; [solve [repeat keeps_step]|intros ?]
    | apply fails_clean_other; solve [repeat quiet_step]
    | case_match ].

Lemma fails_clean_Parameter_set_value leaf theta tr :
  fails_clean (Parameter_set_value leaf theta tr).
Proof. unfold Parameter_set_value. repeat clean_step. Qed.

Lemma fails_clean_Parameter_set_prior leaf prior args :
  fails_clean (Parameter_set_prior leaf prior args).
Proof. unfold Parameter_set_prior. repeat clean_step. Qed.

Lemma fails_clean_Parameters_set_prior c prior args :
  fails_clean (Parameters_set_prior c prior args).
Proof.
  unfold Parameters_set_prior.
  apply fails_clean_bind_reads; [solve [repeat keeps_step]|intros c0].
  case_match; [apply fails_clean_raise|].
  apply fails_clean_bind_other; [|intros ?; repeat quiet_step].
  case_match; [apply fails_clean_reads; repeat keeps_step|].
  case_match. apply fails_clean_Parameter_set_prior.
Qed.

Lemma fails_clean_Parameters_getitem c keys :
  fails_clean (Parameters_getitem c keys;; ret ()).
Proof.
  unfold Parameters_getitem, Parameters_init. 
  apply fails_clean_bind_other; [|intros ?; repeat quiet_step].
  repeat clean_step.
Qed.

Lemma fails_clean_register_leaf c name param :
  fails_clean (register_leaf c name param).
Proof. unfold register_leaf. repeat clean_step. Qed.


Lemma keeps_values_set_value_loop items theta tr a :
  keeps values_only (set_value_loop items theta tr a).
Proof.
  revert a. induction items as [|[k l] items IH]; intros a; simpl.
  - apply keeps_ret. apply _.
  - apply keeps_bind; [apply _| |intros size].
    + unfold Parameter_size. repeat keeps_step.
    + apply keeps_bind; [apply _| |intros ?]; [|apply IH].
      apply keeps_values_Parameter_set_value.
Qed.

Lemma raises_only_Parameter_set_value leaf theta tr :
  raises_only (λ e, e ≠ ValueError msg_number)
    (Parameter_set_value leaf theta tr).
Proof. unfold Parameter_set_value. repeat raises_step. Qed.

Lemma raises_only_set_value_loop items theta tr a :
  raises_only (λ e, e ≠ ValueError msg_number)
    (set_value_loop items theta tr a).
Proof.
  revert a. induction items as [|[k l] items IH]; intros a; simpl.
  - apply raises_only_ret.
  - apply raises_only_bind; [|intros size].
    + unfold Parameter_size. repeat raises_step.
    + apply raises_only_bind; [|intros ?; apply IH].
      apply raises_only_Parameter_set_value.
Qed.

Lemma keeps_eq_Parameters_size self : keeps eq (Parameters_size self).
Proof.
  unfold Parameters_size. apply keeps_bind; [apply _| |intros c].
  { apply keeps_get_Parameters. apply _. }
  apply keeps_bind; [apply _| |intros info].
  - intros h r h' Hr. symmetry. by eapply leaf_info_reads.
  - apply keeps_ret. apply _.
Qed.

Lemma Parameters_set_value_fails self theta tr h e h' :
  Parameters_set_value self theta tr h = (Raise e, h') →
  failure e →
  (e = ValueError msg_number → h' = h) ∧ values_only h h'.
Proof.
  unfold Parameters_set_value. intros Hb Hf.
  apply bind_inv in Hb as [(size & h1 & Hs & Hb)|(e' & Hs & [= ->])].
  2:{ assert (h' = h) as ->; [|done]. symmetry. revert Hs. apply keeps_eq_Parameters_size. }
  assert (h1 = h) as ->.
  { symmetry. revert Hs. apply keeps_eq_Parameters_size. }
  case_decide; [|by injection Hb as _ <-].
  apply bind_inv in Hb as [(c & h1 & Hc & Hb)|(e' & Hc & [= ->])];
    apply get_Parameters_inv in Hc as [-> Hc]; [|done].
  apply bind_inv in Hb as [([] & h1 & Hl & Hb)|(e' & Hl & [= ->])].
  - exfalso. revert Hf. revert Hb. 
    apply (raises_only_update (λ e, ¬ failure e)). inversion 1.
  - split; [|by eapply keeps_values_set_value_loop].
    intros ->. by apply raises_only_set_value_loop in Hl.
Qed.

(** C1 (amended).  An operation that fails with one of the failures of
    the specification (domain violation, shape mismatch, domain mismatch,
    ambiguous target, duplicate or unknown key, duplicate name) leaves the
    whole store exactly as it was when it is the [set_value] or the
    [set_prior] of a leaf, the [set_prior] of a container, a selection, or
    the registration of a leaf.  The [set_value] of a container leaves the
    store as it was when it fails with the shape mismatch; when it fails
    in a leaf only elements of value arrays can differ (the leaves before
    the failing one have been written): bounds, priors, name maps, shapes
    and the log of the hook are as before. *)
Theorem failing_operation_effect (op : operation) (h h' : heap) (e : exn) :
  perform op h = (Raise e, h') →
  failure e →
  match op with
  | SetValue _ _ _ => (e = ValueError msg_number → h' = h) ∧ values_only h h'
  | Register _ _ param =>
    (∃ p, objs h !! param = Some (OParameter p)) → h' = h
  | _ => h' = h
  end.
Proof.
  destruct op as [leaf theta tr|leaf prior args|c theta tr|c prior args
                 |c keys|c name param]; simpl; intros Hr Hf.
  - by eapply fails_clean_Parameter_set_value.
  - by eapply fails_clean_Parameter_set_prior.
  - by eapply Parameters_set_value_fails.
  - by eapply fails_clean_Parameters_set_prior.
  - by eapply fails_clean_Parameters_getitem.
  - intros [p Hp]. unfold Parameters__register, bind, lookup_obj in Hr.
    rewrite Hp in Hr. simpl in Hr. by eapply fails_clean_register_leaf.
Qed.

(** ** Copies *)

Lemma bind_ok {A B} (c : py A) (k : A → py B) h a h1 :
  c h = (Return a, h1) → bind c k h = k a h1.
Proof. intros E. unfold bind. by rewrite E. Qed.

Lemma deepcopy_hit depth x y memo :
  memo !! x = Some y → deepcopy depth x memo = ret (y, memo).
Proof. intros E. destruct depth; simpl; by rewrite E. Qed.

Lemma memo_le_refl h0 memo : memo_le h0 memo memo.
Proof. by split. Qed.

Lemma memo_le_trans h0 m1 m2 m3 :
  memo_le h0 m1 m2 → memo_le h0 m2 m3 → memo_le h0 m1 m3.
Proof. intros [Hd Hk] [Hd' Hk']. split; [set_solver|]. eauto. Qed.

Lemma memo_le_insert h0 memo x y :
  memo !! x = None → memo_le h0 memo (<[x := y]> memo).
Proof.
  intros Hx. split; [set_solver|]. intros k v _ Hk.
  rewrite lookup_insert_ne; [done|]. congruence.
Qed.

Lemma memo_le_insert_array h0 memo x y :
  is_ndarray h0 x = true → memo_le h0 memo (<[x := y]> memo).
Proof.
  intros Hx. split; [set_solver|]. intros k v Hk Hv.
  rewrite lookup_insert_ne; [done|]. congruence.
Qed.

Lemma measure_le (D : gset loc) (memo memo' : gmap loc loc) m :
  dom memo ⊆ dom memo' → size (D ∖ dom memo) ≤ m → size (D ∖ dom memo') ≤ m.
Proof.
  intros Hd Hm. etrans; [|exact Hm]. apply subseteq_size. set_solver.
Qed.

Lemma measure_insert (D : gset loc) (memo : gmap loc loc) x y m :
  x ∈ D → memo !! x = None →
  size (D ∖ dom memo) ≤ S m → size (D ∖ dom (<[x := y]> memo)) ≤ m.
Proof.
  intros HD Hx Hm.
  assert (D ∖ dom (<[x := y]> memo) = (D ∖ dom memo) ∖ {[x]}) as ->.
  { rewrite dom_insert_L. set_solver. }
  assert (x ∈ D ∖ dom memo) as Hin.
  { apply elem_of_difference. split; [done|]. by apply not_elem_of_dom. }
  rewrite size_difference by set_solver. rewrite size_singleton. lia.
Qed.

Lemma measure_zero (D : gset loc) (memo : gmap loc loc) x :
  x ∈ D → size (D ∖ dom memo) ≤ 0 → is_Some (memo !! x).
Proof.
  intros HD Hm. apply elem_of_dom.
  assert (D ∖ dom memo ≡ ∅) as He.
  { apply size_empty_inv. lia. }
  destruct (decide (x ∈ dom memo)); [done|]. set_solver.
Qed.

Lemma fresh_leaf_grows h0 h h' l :
  heap_ok h → grows h h' → fresh_leaf h0 h l → fresh_leaf h0 h' l.
Proof.
  intros Hok (_ & _ & _ & Hl) (p & a & Hp & Ha & Hn).
  exists p, a. split_and!; try (by apply Hn).
  - rewrite Hl; [done|]. apply Hok. eauto.
  - rewrite Hl; [done|]. apply Hok. eauto.
Qed.

Lemma copying_grows h0 memo h h' :
  copying h0 memo h → grows h h' → heap_ok h' → copying h0 memo h'.
Proof.
  intros (Hok & Hn & Hl & Hm) Hg Hok'. pose proof Hg as (Hn' & _ & _ & Hl').
  split_and!; [done|lia| |].
  - intros l Hlt. rewrite Hl' by lia. by apply Hl.
  - intros l l' Hml Hleaf. apply (fresh_leaf_grows h0 h); eauto.
Qed.

Lemma closed_lt h0 l o : closed h0 → objs h0 !! l = Some o → l < next_id h0.
Proof. intros Hc Hl. by apply Hc in Hl as [? _]. Qed.

Lemma closed_typed h0 l o :
  closed h0 → objs h0 !! l = Some o → well_typed h0 l o = true.
Proof. intros Hc Hl. by apply Hc in Hl as [_ ?]. Qed.

Lemma closed_heap_ok h0 : closed h0 → heap_ok h0.
Proof. intros Hc l [o Ho]. by eapply closed_lt. Qed.

Lemma is_ndarray_spec h l :
  is_ndarray h l = true → ∃ a, objs h !! l = Some (ONdarray a).
Proof. unfold is_ndarray. destruct (objs h !! l) as [[]|]; naive_solver. Qed.

Lemma is_leaf_spec h l :
  is_leaf h l = true → ∃ p, objs h !! l = Some (OParameter p).
Proof. unfold is_leaf. destruct (objs h !! l) as [[]|]; naive_solver. Qed.

Lemma is_owner_spec h l :
  is_owner h l = true → ∃ o, objs h !! l = Some (OParameterized o).
Proof. unfold is_owner. destruct (objs h !! l) as [[]|]; naive_solver. Qed.


Lemma copying_store h0 memo h (n : loc) o :
  copying h0 memo h → objs h !! n = None → next_id h0 ≤ n → n < next_id h →
  copying h0 memo {| objs := <[n := o]> (objs h); next_id := next_id h;
                     updates := updates h; warned := warned h |}.
Proof.
  intros (Hok & Hn & Hl & Hm) Hnone Hle Hlt. split_and!; simpl; [|done| |].
  - intros l. simpl. destruct (decide (l = n)) as [->|Hne]; [done|].
    rewrite lookup_insert_ne by done. apply Hok.
  - intros l Hl0. rewrite lookup_insert_ne by lia. by apply Hl.
  - intros l l' Hml Hleaf. destruct (Hm l l' Hml Hleaf) as (p & a & Hp & Ha & Hb).
    assert (n ≠ l') by (intros ->; congruence).
    assert (n ≠ value p) by (intros E; rewrite E in Hnone; congruence).
    exists p, a. simpl. by rewrite !lookup_insert_ne by done.
Qed.

Lemma copying_new_id h0 memo h :
  copying h0 memo h →
  copying h0 memo {| objs := objs h; next_id := S (next_id h);
                     updates := updates h; warned := warned h |} ∧
  objs h !! next_id h = None.
Proof.
  intros (Hok & Hn & Hl & Hm). split.
  - split_and!; simpl; [|lia|done|done].
    intros l Hs. apply Hok in Hs. simpl. lia.
  - destruct (objs h !! next_id h) eqn:E; [|done].
    assert (next_id h < next_id h); [|lia]. apply Hok. by eexists.
Qed.

Lemma copying_memo h0 memo memo' h :
  copying h0 memo h →
  (∀ l l', memo' !! l = Some l' → is_leaf h0 l = true → memo !! l = Some l') →
  copying h0 memo' h.
Proof.
  intros (Hok & Hn & Hl & Hm) Hle. split_and!; try done.
  intros l l' Hml Hleaf. eauto.
Qed.

Lemma Parameter_deepcopy_ok h0 dc x p memo h :
  closed h0 →
  (∀ x y memo, memo !! x = Some y → dc x memo = ret (y, memo)) →
  objs h0 !! x = Some (OParameter p) → memo !! x = None →
  copying h0 memo h →
  ∃ memo' h',
    Parameter___deepcopy__ dc x memo h = (Return (next_id h, memo'), h') ∧
    copy_post h0 x memo h (next_id h) memo' h'.
Proof.
  intros Hc Hhit Hx Hmiss Hcop.
  pose proof (closed_typed _ _ _ Hc Hx) as Hty. simpl in Hty.
  pose proof Hty as Harr. apply is_ndarray_spec in Hty as [a Ha].
  pose proof (closed_lt _ _ _ Hc Hx) as Hxlt.
  pose proof (closed_lt _ _ _ Hc Ha) as Halt.
  pose proof Hcop as (Hok & Hn & Hl & Hm).
  pose proof (Hl _ Hxlt) as Hx'. rewrite Hx in Hx'.
  pose proof (Hl _ Halt) as Ha'. rewrite Ha in Ha'.
  pose proof (copying_new_id _ _ _ Hcop) as [_ Hnone].
  assert (objs h !! S (next_id h) = None) as Hnone'.
  { destruct (objs h !! S (next_id h)) eqn:E; [|done].
    assert (S (next_id h) < next_id h); [|lia]. apply Hok. by eexists. }
  unfold Parameter___deepcopy__.
  erewrite bind_ok by (by apply get_Parameter_ok).
  erewrite bind_ok by reflexivity.
  erewrite bind_ok by (by apply get_ndarray_ok).
  unfold alloc. erewrite bind_ok by (unfold bind, new_id, store, ret; simpl; reflexivity).
  rewrite (Hhit _ (S (next_id h))) by apply lookup_insert_eq.
  unfold bind, ret, store. simpl.
  eexists _, _. split; [reflexivity|].
  assert (x ≠ value p) as Hne by (intros E; rewrite E in Hx; by rewrite Hx in Ha).
  split_and!.
  - split_and!; simpl.
    + intros l. simpl.
      destruct (decide (l = next_id h)) as [->|]; [lia|].
      rewrite lookup_insert_ne by done.
      destruct (decide (l = S (next_id h))) as [->|]; [lia|].
      rewrite lookup_insert_ne by done. intros Hs%Hok. lia.
    + lia.
    + intros l Hlt. rewrite !lookup_insert_ne by lia. by apply Hl.
    + intros l l' Hml Hleaf.
      destruct (decide (l = value p)) as [->|Hlv].
      { unfold is_leaf in Hleaf. by rewrite Ha in Hleaf. }
      rewrite lookup_insert_ne in Hml by done.
      destruct (decide (l = x)) as [->|Hlx].
      * rewrite lookup_insert_eq in Hml. injection Hml as <-.
        unfold fresh_leaf. simpl. eexists _, _.
        rewrite lookup_insert_eq. split; [done|]. simpl.
        rewrite lookup_insert_ne by lia. rewrite lookup_insert_eq.
        split; [done|]. lia.
      * rewrite lookup_insert_ne in Hml by done.
        destruct (Hm l l' Hml Hleaf) as (p' & a' & Hp' & Ha'' & Hb).
        exists p', a'.
        assert (l' < next_id h) by (apply Hok; by eexists).
        assert (value p' < next_id h) by (apply Hok; by eexists).
        simpl. rewrite !lookup_insert_ne by lia. done.
  - split_and!; simpl; [lia|done|done|].
    intros l Hlt. by rewrite !lookup_insert_ne by lia.
  - rewrite lookup_insert_ne by done. apply lookup_insert_eq.
  - eapply memo_le_trans; [by apply memo_le_insert|].
    by apply memo_le_insert_array.
  - intros c Hxc. congruence.
  - intros o c Hxo. congruence.
  - done.
Qed.


Lemma leaf_not_array h l : is_leaf h l = true → is_ndarray h l = false.
Proof. unfold is_leaf, is_ndarray. by destruct (objs h !! l) as [[]|]. Qed.

Lemma owner_not_array h l : is_owner h l = true → is_ndarray h l = false.
Proof. unfold is_owner, is_ndarray. by destruct (objs h !! l) as [[]|]. Qed.

Lemma owner_not_leaf h l : is_owner h l = true → is_leaf h l = false.
Proof. unfold is_owner, is_leaf. by destruct (objs h !! l) as [[]|]. Qed.

Lemma deepcopy_items_hits (dc : deepcopier) items items' memo h :
  (∀ x y memo, memo !! x = Some y → dc x memo = ret (y, memo)) →
  Forall2 (copied memo) items items' →
  deepcopy_items dc items memo h = (Return (items', memo), h).
Proof.
  intros Hhit. induction 1 as [|[k l] [k' l'] items items' [Hk Hl] _ IH]; [done|].
  simpl in *. subst k'. rewrite (Hhit _ _ _ Hl).
  unfold bind at 1. unfold ret at 1. unfold bind. by rewrite IH.
Qed.

Lemma deepcopy_items_ok h0 m dc items memo h :
  dc_spec h0 m dc →
  Forall (λ kl : string * loc, is_leaf h0 kl.2 = true) items →
  copying h0 memo h →
  size (dom (objs h0) ∖ dom memo) ≤ m →
  ∃ items' memo' h',
    deepcopy_items dc items memo h = (Return (items', memo'), h') ∧
    copying h0 memo' h' ∧ grows h h' ∧ memo_le h0 memo memo' ∧
    Forall2 (copied memo') items items'.
Proof.
  intros [Hhit Hgen] Hitems. revert memo h.
  induction Hitems as [|[k l] items Hleaf _ IH]; intros memo h Hcop Hm.
  - exists [], memo, h. split_and!; try done; apply memo_le_refl.
  - simpl in Hleaf.
    destruct (Hgen l memo h Hcop) as (y & memo1 & h1 & E1 & Hc1 & Hg1 & Hy & Hle1 & _);
      [by apply is_leaf_spec in Hleaf as [p ->]|done|].
    destruct (IH memo1 h1 Hc1) as (rest & memo2 & h2 & E2 & Hc2 & Hg2 & Hle2 & Hrest).
    { eapply measure_le; [apply Hle1|done]. }
    exists ((k, y) :: rest), memo2, h2. split_and!.
    + simpl. erewrite bind_ok by exact E1. simpl.
      by erewrite bind_ok by exact E2.
    + done.
    + by etrans.
    + by eapply memo_le_trans.
    + constructor; [|done]. split; [done|]. simpl.
      apply Hle2; [by apply leaf_not_array|done].
Qed.

Lemma deepcopy_attrs_ok h0 m dc kvs memo h :
  dc_spec h0 m dc →
  Forall (λ kv : string * pyval,
            match kv.2 with
            | PyRef l' => is_Some (objs h0 !! l')
            | _ => True
            end) kvs →
  copying h0 memo h →
  size (dom (objs h0) ∖ dom memo) ≤ m →
  ∃ kvs' memo' h',
    deepcopy_attrs dc kvs memo h = (Return (kvs', memo'), h') ∧
    copying h0 memo' h' ∧ grows h h' ∧ memo_le h0 memo memo'.
Proof.
  intros [Hhit Hgen] Hkvs. revert memo h.
  induction Hkvs as [|[k v] kvs Hv _ IH]; intros memo h Hcop Hm.
  - exists [], memo, h. split_and!; try done; apply memo_le_refl.
  - simpl in Hv.
    assert (∃ v' memo1 h1,
      deepcopy_pyval dc v memo h = (Return (v', memo1), h1) ∧
      copying h0 memo1 h1 ∧ grows h h1 ∧ memo_le h0 memo memo1)
      as (v' & memo1 & h1 & E1 & Hc1 & Hg1 & Hle1).
    { destruct v as [| | |l]; simpl;
        try (by eexists _, memo, h; split_and!; try done; apply memo_le_refl).
      destruct (Hgen l memo h Hcop Hv Hm)
        as (y & memo1 & h1 & E1 & Hc1 & Hg1 & Hy & Hle1 & _).
      exists (PyRef y), memo1, h1. split_and!; try done.
      by erewrite bind_ok by exact E1. }
    destruct (IH memo1 h1 Hc1) as (rest & memo2 & h2 & E2 & Hc2 & Hg2 & Hle2).
    { eapply measure_le; [apply Hle1|done]. }
    exists ((k, v') :: rest), memo2, h2. split_and!.
    + simpl. erewrite bind_ok by exact E1. simpl.
      by erewrite bind_ok by exact E2.
    + done.
    + by etrans.
    + by eapply memo_le_trans.
Qed.


Lemma forallb_Forall {A} (f : A → bool) (l : list A) :
  forallb f l = true → Forall (λ x, f x = true) l.
Proof.
  induction l as [|a l IH]; simpl; [constructor|].
  intros [Ha Hl]%andb_prop. constructor; auto.
Qed.

Lemma Parameters_deepcopy_ok h0 m dc x c memo h :
  closed h0 → dc_spec h0 m dc →
  objs h0 !! x = Some (OParameters c) → memo !! x = None →
  copying h0 memo h →
  size (dom (objs h0) ∖ dom (<[x := next_id h]> memo)) ≤ m →
  ∃ memo' h',
    Parameters___deepcopy__ dc x memo h = (Return (next_id h, memo'), h') ∧
    copy_post h0 x memo h (next_id h) memo' h'.
Proof.
  intros Hc Hdc Hx Hmiss Hcop Hm. pose proof Hdc as [Hhit Hgen].
  pose proof (closed_typed _ _ _ Hc Hx) as Hty. simpl in Hty.
  apply andb_prop in Hty as [Howner Hleaves]. apply forallb_Forall in Hleaves.
  pose proof (closed_lt _ _ _ Hc Hx) as Hxlt.
  pose proof Hcop as (Hok & Hn & Hl & Hmemo).
  pose proof (Hl _ Hxlt) as Hx'. rewrite Hx in Hx'.
  assert (x ≠ obj c) as Hne.
  { intros E. rewrite <- E in Howner. unfold is_owner in Howner.
    by rewrite Hx in Howner. }
  assert (is_leaf h0 x = false) as Hxleaf.
  { unfold is_leaf. by rewrite Hx. }
  assert (is_ndarray h0 x = false) as Hxarr.
  { unfold is_ndarray. by rewrite Hx. }
  pose proof (copying_new_id _ _ _ Hcop) as [Hcop1 Hnone].
  set (n := next_id h) in *.
  set (h1 := {| objs := objs h; next_id := S n; updates := updates h;
                warned := warned h |}) in *.
  pose (memo1 := <[x := n]> memo).
  pose (memo2 := match memo1 !! obj c with
                 | Some _ => memo1
                 | None => <[obj c := obj c]> memo1
                 end).
  assert (memo_le h0 memo1 memo2) as Hle12.
  { unfold memo2. destruct (memo1 !! obj c) eqn:E;
      [apply memo_le_refl|by apply memo_le_insert]. }
  assert (memo_le h0 memo memo2) as Hle2.
  { eapply memo_le_trans; [|exact Hle12]. by apply memo_le_insert. }
  assert (memo2 !! x = Some n) as Hx2.
  { apply Hle12; [done|]. apply lookup_insert_eq. }
  assert (memo2 !! obj c = Some (default (obj c) (memo !! obj c))) as Ho2.
  { unfold memo2, memo1. rewrite lookup_insert_ne by done.
    destruct (memo !! obj c) eqn:E; simpl.
    - by rewrite lookup_insert_ne by done.
    - apply lookup_insert_eq. }
  assert (copying h0 memo2 h1) as Hcop2.
  { apply (copying_memo h0 memo); [done|]. intros l l' Hl2 Hleaf.
    assert (l ≠ x) by (intros ->; congruence).
    assert (l ≠ obj c).
    { intros ->. apply owner_not_leaf in Howner. congruence. }
    revert Hl2. unfold memo2, memo1. destruct (<[x:=n]> memo !! obj c);
      by rewrite !lookup_insert_ne by done. }
  destruct (deepcopy_items_ok h0 m dc (params c) memo2 h1 Hdc Hleaves Hcop2)
    as (items' & memo3 & h3 & E3 & Hcop3 & Hg3 & Hle3 & Hrel).
  { eapply measure_le; [apply Hle12|done]. }
  assert (memo3 !! obj c = Some (default (obj c) (memo !! obj c))) as Ho3.
  { apply Hle3; [by apply owner_not_array|done]. }
  assert (memo3 !! x = Some n) as Hx3 by (by apply Hle3).
  pose proof Hg3 as (Hn3 & Hu3 & Hw3 & Hl3).
  assert (objs h3 !! n = None) as Hnone3.
  { rewrite Hl3; [done|]. simpl. lia. }
  unfold Parameters___deepcopy__.
  erewrite bind_ok by (by apply get_Parameters_ok).
  erewrite bind_ok by reflexivity. cbv zeta.
  erewrite bind_ok by exact E3. simpl.
  rewrite (Hhit _ _ _ Ho3). unfold bind at 1. unfold ret at 1.
  erewrite bind_ok by (by apply deepcopy_items_hits). simpl.
  unfold bind, store, ret.
  eexists _, _. split; [reflexivity|].
  split_and!.
  - apply copying_store; [done..| |]; simpl in *; lia.
  - split_and!; simpl; [simpl in Hn3; lia|done|done|].
    intros l Hlt. rewrite lookup_insert_ne by lia.
    rewrite Hl3 by (simpl; lia). done.
  - done.
  - by eapply memo_le_trans.
  - intros c' Hxc _. assert (c' = c) as -> by congruence.
    exists items'. simpl. by rewrite lookup_insert_eq.
  - intros o' c' Hxo. congruence.
  - done.
Qed.


Lemma copied_le h0 memo memo' items items' :
  memo_le h0 memo memo' →
  Forall (λ kl : string * loc, is_leaf h0 kl.2 = true) items →
  Forall2 (copied memo) items items' → Forall2 (copied memo') items items'.
Proof.
  intros [_ Hle] Hleaves Hrel. induction Hrel as [|kl kl' ?? [Hk Hm] _ IH];
    [constructor|].
  apply Forall_cons in Hleaves as [Hleaf Hleaves].
  constructor; [|by apply IH]. split; [done|].
  apply Hle; [by apply leaf_not_array|done].
Qed.

Lemma Parameterized_deepcopy_ok h0 m dc x o memo h :
  closed h0 → dc_spec h0 m dc →
  objs h0 !! x = Some (OParameterized o) → memo !! x = None →
  copying h0 memo h →
  size (dom (objs h0) ∖ dom (<[x := next_id h]> memo)) ≤ m →
  ∃ memo' h',
    Parameterized___deepcopy__ dc x memo h
      = (Return (next_id h, memo'), h') ∧
    copy_post h0 x memo h (next_id h) memo' h'.
Proof.
  intros Hc Hdc Hx Hmiss Hcop Hm. pose proof Hdc as [Hhit Hgen].
  pose proof (closed_typed _ _ _ Hc Hx) as Hty. simpl in Hty.
  apply andb_prop in Hty as [Hcont Hattrs]. apply forallb_Forall in Hattrs.
  destruct (objs h0 !! self_params o) as [[|?|c|]|] eqn:Hsp; try done.
  apply bool_decide_eq_true in Hcont.
  pose proof (closed_typed _ _ _ Hc Hsp) as Hty. simpl in Hty.
  apply andb_prop in Hty as [_ Hleaves]. apply forallb_Forall in Hleaves.
  pose proof (closed_lt _ _ _ Hc Hx) as Hxlt.
  pose proof Hcop as (Hok & Hn & Hl & Hmemo).
  pose proof (Hl _ Hxlt) as Hx'. rewrite Hx in Hx'.
  assert (self_params o ≠ x) as Hne.
  { intros E. rewrite E in Hsp. congruence. }
  assert (is_leaf h0 x = false) as Hxleaf.
  { unfold is_leaf. by rewrite Hx. }
  assert (is_ndarray h0 x = false) as Hxarr.
  { unfold is_ndarray. by rewrite Hx. }
  pose proof (copying_new_id _ _ _ Hcop) as [Hcop1 Hnone].
  set (n := next_id h) in *.
  set (h1 := {| objs := objs h; next_id := S n; updates := updates h;
                warned := warned h |}) in *.
  pose (memo1 := <[x := n]> memo).
  assert (memo_le h0 memo memo1) as Hle1 by (by apply memo_le_insert).
  assert (copying h0 memo1 h1) as Hcop1'.
  { apply (copying_memo h0 memo); [done|]. intros l l' Hl1 Hleaf.
    assert (l ≠ x) by (intros ->; congruence).
    unfold memo1 in Hl1. by rewrite lookup_insert_ne in Hl1 by done. }
  destruct (Hgen (self_params o) memo1 h1 Hcop1')
    as (y' & memo2 & h2 & E2 & Hcop2 & Hg2 & Hy2 & Hle2 & Hstruct & _);
    [by rewrite Hsp|done|].
  destruct (deepcopy_attrs_ok h0 m dc (attrs o) memo2 h2 Hdc) 
    as (kvs & memo3 & h3 & E3 & Hcop3 & Hg3 & Hle3); [|done| |].
  { eapply Forall_impl; [exact Hattrs|]. intros [k []]; simpl; try done.
    by intros ?%bool_decide_eq_true. }
  { eapply measure_le; [apply Hle2|done]. }
  pose proof Hg2 as (Hn2 & Hu2 & Hw2 & Hl2).
  pose proof Hg3 as (Hn3 & Hu3 & Hw3 & Hl3).
  assert (objs h3 !! n = None) as Hnone3.
  { rewrite Hl3 by (simpl in Hn2; lia). rewrite Hl2; [done|]. simpl. lia. }
  unfold Parameterized___deepcopy__.
  erewrite bind_ok by (by apply get_Parameterized_ok).
  erewrite bind_ok by reflexivity. cbv zeta.
  erewrite bind_ok by exact E2. simpl.
  rewrite (Hhit _ _ _ Hy2). unfold bind at 1. unfold ret at 1.
  erewrite bind_ok by exact E3. simpl.
  unfold bind, store, ret.
  eexists _, _. split; [reflexivity|].
  split_and!.
  - apply copying_store; [done..| |]; simpl in *; lia.
  - split_and!; simpl;
      [simpl in Hn2; lia|by rewrite Hu3, Hu2|by rewrite Hw3, Hw2|].
    intros l Hlt. rewrite lookup_insert_ne by lia.
    rewrite Hl3 by (simpl in Hn2; lia). rewrite Hl2 by (simpl; lia). done.
  - apply Hle3; [done|]. apply Hle2; [done|]. apply lookup_insert_eq.
  - eapply memo_le_trans; [exact Hle1|]. by eapply memo_le_trans.
  - intros c' Hxc. congruence.
  - intros o' c' Hxo _ Hsp' Hmiss'.
    assert (o' = o) as -> by congruence. assert (c' = c) as -> by congruence.
    destruct (Hstruct c Hsp) as (items' & Hy' & Hrel).
    { unfold memo1. by rewrite lookup_insert_ne by done. }
    exists y', kvs, items'. simpl. rewrite lookup_insert_eq.
    split; [done|].
    assert (y' < next_id h2) by (apply Hcop2; by eexists).
    assert (n ≠ y') by (intros E; rewrite E in Hnone3;
                        rewrite Hl3 in Hnone3 by done; congruence).
    rewrite lookup_insert_ne by done. rewrite Hl3 by done.
    split; [|by eapply copied_le].
    rewrite Hy'. do 3 f_equal. unfold memo1. rewrite Hcont.
    by rewrite lookup_insert_eq.
  - done.
Qed.

Lemma deepcopy_spec h0 m : closed h0 → dc_spec h0 m (deepcopy m).
Proof.
  intros Hc. induction m as [|m IH].
  - split; [intros; by apply deepcopy_hit|].
    intros x memo h Hcop Hx Hm.
    destruct (measure_zero (dom (objs h0)) memo x) as [y Hy];
      [by apply elem_of_dom|done|].
    exists y, memo, h. rewrite (deepcopy_hit _ _ _ _ Hy).
    split; [done|]. split_and!; try done; try apply memo_le_refl;
      intros; congruence.
  - split; [intros; by apply deepcopy_hit|].
    intros x memo h Hcop [o Hx] Hm.
    destruct (memo !! x) as [y|] eqn:Hy.
    { exists y, memo, h. rewrite (deepcopy_hit _ _ _ _ Hy).
      split; [done|]. split_and!; try done; try apply memo_le_refl;
        intros; congruence. }
    pose proof (closed_lt _ _ _ Hc Hx) as Hxlt.
    pose proof Hcop as (Hok & Hn & Hl & Hmemo).
    pose proof (Hl _ Hxlt) as Hx'. rewrite Hx in Hx'.
    assert (size (dom (objs h0) ∖ dom (<[x := next_id h]> memo)) ≤ m) as Hm'.
    { apply measure_insert; [by apply elem_of_dom|done..]. }
    simpl. rewrite Hy.
    erewrite bind_ok by (unfold lookup_obj; by rewrite Hx').
    destruct o as [a|p|c|o].
    + pose proof (copying_new_id _ _ _ Hcop) as [Hcop1 Hnone].
      unfold alloc, bind, new_id, store, ret. simpl.
      eexists _, _, _. split; [reflexivity|].
      assert (is_leaf h0 x = false) by (unfold is_leaf; by rewrite Hx).
      split_and!.
      * apply (copying_memo h0 memo).
        -- apply (copying_store h0 memo _ _ _ Hcop1); simpl; [done|lia..].
        -- intros l l' Hml Hleaf. assert (l ≠ x) by (intros ->; congruence).
           by rewrite lookup_insert_ne in Hml by done.
      * split_and!; simpl; [lia|done|done|].
        intros l Hlt. by rewrite lookup_insert_ne by lia.
      * apply lookup_insert_eq.
      * by apply memo_le_insert.
      * intros; congruence.
      * intros; congruence.
      * done.
    + destruct (Parameter_deepcopy_ok h0 (deepcopy m) x p memo h)
        as (memo' & h' & E & Hpost); [done|apply IH|done..|].
      erewrite bind_ok by exact E. unfold ret.
      exists (next_id h), memo', h'.
      pose proof Hpost as (_ & _ & Hy' & _). by rewrite insert_id by done.
    + destruct (Parameters_deepcopy_ok h0 m (deepcopy m) x c memo h)
        as (memo' & h' & E & Hpost); [done..|].
      erewrite bind_ok by exact E. unfold ret.
      exists (next_id h), memo', h'.
      pose proof Hpost as (_ & _ & Hy' & _). by rewrite insert_id by done.
    + destruct (Parameterized_deepcopy_ok h0 m (deepcopy m) x o memo h)
        as (memo' & h' & E & Hpost); [done..|].
      erewrite bind_ok by exact E. unfold ret.
      exists (next_id h), memo', h'.
      pose proof Hpost as (_ & _ & Hy' & _). by rewrite insert_id by done.
Qed.


Lemma copying_init h0 : closed h0 → copying h0 ∅ h0.
Proof.
  intros Hc. split_and!; [by apply closed_heap_ok|done|done|].
  intros l l'. by rewrite lookup_empty.
Qed.

Lemma Parameter_size_reads self h r h' :
  Parameter_size self h = (r, h') → h' = h.
Proof.
  unfold Parameter_size. intros Hb.
  apply bind_inv in Hb as [(p & h1 & Hp & Hb)|(e & Hp & _)];
    apply get_Parameter_inv in Hp as [-> Hp]; [|done].
  apply bind_inv in Hb as [(a & h1 & Ha & Hb)|(e & Ha & _)];
    apply get_ndarray_inv in Ha as [-> Ha]; [|done].
  by injection Hb as _ <-.
Qed.

Lemma Parameter_set_value_writes self theta tr h r h' (l : loc) :
  Parameter_set_value self theta tr h = (r, h') →
  (∀ p, objs h !! self = Some (OParameter p) → l ≠ value p) →
  objs h' !! l = objs h !! l.
Proof.
  unfold Parameter_set_value. intros Hb Hl.
  apply bind_inv in Hb as [(p & h1 & Hp & Hb)|(e & Hp & _)];
    apply get_Parameter_inv in Hp as [-> Hp]; [|done].
  apply bind_inv in Hb as [(o & h1 & Ho & Hb)|(e & Ho & _)].
  2:{ apply (keeps_lift eq) in Ho. by subst. }
  apply (keeps_lift eq) in Ho. subst h1.
  destruct o; [by injection Hb as _ <-|].
  apply bind_inv in Hb as [(a & h1 & Ha & Hb)|(e & Ha & _)];
    apply get_ndarray_inv in Ha as [-> Ha]; [|done].
  injection Hb as _ <-. simpl. apply lookup_insert_ne. 
  intros E. by eapply Hl.
Qed.

Lemma values_only_leaf h h' (l : loc) p :
  values_only h h' → objs h' !! l = Some (OParameter p) →
  objs h !! l = Some (OParameter p).
Proof.
  intros (_ & _ & _ & Hl) Hp. specialize (Hl l).
  destruct (objs h !! l) as [[]|]; try congruence.
  destruct Hl as (a' & Ha' & _). congruence.
Qed.

Lemma set_value_loop_writes (n : nat) items theta tr a h r h' :
  Forall (λ kl : string * loc,
            ∀ p, objs h !! kl.2 = Some (OParameter p) → n ≤ value p) items →
  set_value_loop items theta tr a h = (r, h') →
  ∀ l : loc, l < n → objs h' !! l = objs h !! l.
Proof.
  intros Hitems. revert a h Hitems.
  induction items as [|[k l0] items IH]; intros a h Hitems; simpl.
  - by intros [= _ <-].
  - apply Forall_cons in Hitems as [Hl0 Hitems]. simpl in Hl0.
    intros Hb l Hlt.
    apply bind_inv in Hb as [(size & h1 & Hs & Hb)|(e & Hs & _)];
      apply Parameter_size_reads in Hs as ->; [|done].
    assert (∀ r1 h1, Parameter_set_value l0 (slice a (a + size) theta) tr h
                       = (r1, h1) → objs h1 !! l = objs h !! l) as Hw.
    { intros r1 h1 Hr1. eapply Parameter_set_value_writes; [exact Hr1|].
      intros p Hp E. apply Hl0 in Hp. lia. }
    apply bind_inv in Hb as [([] & h1 & Hv & Hb)|(e & Hv & _)];
      [|by eapply Hw].
    rewrite <- (Hw _ _ Hv). eapply IH; [|exact Hb|done].
    apply keeps_values_Parameter_set_value in Hv.
    eapply Forall_impl; [exact Hitems|]. intros kl Hkl p Hp.
    apply Hkl. by eapply values_only_leaf.
Qed.

(** C7.  In a store whose references resolve ([closed]), with a depth of
    recursion of at least the number of objects, [copy()] of an owner
    [self] returns a new owner [new] that is not an object of the store
    before the call, and every object of that store is as it was.  The
    container of the copy refers back to [new], not to [self]; its leaves
    and their arrays are not objects of the original store (no array is
    shared).  [copy(theta)] is [copy()] followed by the [set_value] of the
    container of the copy, and whatever that [set_value] does, every
    object of the original store, its value arrays included, is as it was
    before the copy; when it returns, the hook has been called once more,
    on [new]. *)
Theorem copy_is_independent (h : heap) (self : loc) (o : Parameterized)
    (depth : nat) :
  closed h →
  objs h !! self = Some (OParameterized o) →
  size (dom (objs h)) ≤ depth →
  ∃ new h1 o' c',
    Parameterized_copy depth self None false h = (Return new, h1) ∧
    objs h !! new = None ∧
    (∀ l, is_Some (objs h !! l) → objs h1 !! l = objs h !! l) ∧
    objs h1 !! new = Some (OParameterized o') ∧
    objs h1 !! self_params o' = Some (OParameters c') ∧
    obj c' = new ∧
    Forall (fresh_leaf h h1) (params c').*2 ∧
    ∀ theta transformed,
      Parameterized_copy depth self (Some theta) transformed h
        = (Parameters_set_value (self_params o') theta transformed;;
           ret new) h1 ∧
      ∀ r h2,
        Parameters_set_value (self_params o') theta transformed h1 = (r, h2) →
        (∀ l, is_Some (objs h !! l) → objs h2 !! l = objs h !! l) ∧
        match r with
        | Return _ => updates h2 = updates h ++ [(new, objs h2)]
        | Raise _ => updates h2 = updates h
        end.
Proof.
  intros Hc Hself Hdepth.
  pose proof (closed_typed _ _ _ Hc Hself) as Hty. simpl in Hty.
  apply andb_prop in Hty as [Hcont _].
  destruct (objs h !! self_params o) as [[|?|c|]|] eqn:Hsp; try done.
  pose proof (closed_typed _ _ _ Hc Hsp) as Hty. simpl in Hty.
  apply andb_prop in Hty as [_ Hleaves]. apply forallb_Forall in Hleaves.
  destruct (deepcopy_spec h depth Hc) as [_ Hgen].
  destruct (Hgen self ∅ h) as (new & memo & h1 & E & Hcop & Hg & Hnew & Hle
                               & _ & Hstruct & Hfresh);
    [by apply copying_init|by eexists| |].
  { etrans; [|exact Hdepth]. apply subseteq_size. set_solver. }
  destruct (Hstruct o c Hself (lookup_empty _) Hsp (lookup_empty _))
    as (y' & kvs & items' & Hnew1 & Hy' & Hrel).
  specialize (Hfresh (lookup_empty _)). subst new.
  pose proof Hg as (Hn & Hu & Hw & Hl).
  pose proof (closed_heap_ok _ Hc) as Hok.
  assert (Forall (fresh_leaf h h1) items'.*2) as Hitems.
  { destruct Hcop as (_ & _ & _ & Hmemo). clear -Hrel Hleaves Hmemo.
    induction Hrel as [|[k l] [k' l'] ?? [_ Hm] _ IH]; [constructor|].
    apply Forall_cons in Hleaves as [Hleaf Hleaves].
    constructor; [|by apply IH]. simpl in *. by eapply Hmemo. }
  assert (∀ theta tr a r h',
            set_value_loop items' theta tr a h1 = (r, h') →
            ∀ l : loc, l < next_id h → objs h' !! l = objs h1 !! l)
    as Hwrites.
  { intros theta tr a r h' Hloop.
    eapply set_value_loop_writes; [|exact Hloop].
    rewrite Forall_fmap in Hitems. eapply Forall_impl; [exact Hitems|].
    intros kl (p & a' & Hp & _ & _ & Hv) p' Hp'. simpl in *.
    by assert (p' = p) as -> by congruence. }
  eexists (next_id h), h1, _, _. split_and!.
  - unfold Parameterized_copy. by erewrite bind_ok by exact E.
  - destruct (objs h !! next_id h) eqn:E'; [|done].
    assert (next_id h < next_id h); [|lia]. apply Hok. by eexists.
  - intros l Hs. apply Hl. by apply Hok.
  - exact Hnew1.
  - exact Hy'.
  - done.
  - done.
  - intros theta tr. split.
    { unfold Parameterized_copy. erewrite bind_ok by exact E. simpl.
      by erewrite bind_ok by (by apply get_Parameterized_ok). }
    intros r h2 Hset. unfold Parameters_set_value in Hset. simpl in Hset.
    assert (∀ h', (∀ l : loc, l < next_id h → objs h' !! l = objs h1 !! l) →
                  ∀ l, is_Some (objs h !! l) → objs h' !! l = objs h !! l)
      as Hback.
    { intros h' Hh' l Hs%Hok. rewrite Hh' by done. by apply Hl. }
    apply bind_inv in Hset as [(size & h' & Hs & Hset)|(e & Hs & ->)].
    2:{ apply keeps_eq_Parameters_size in Hs as <-. split; [by apply Hback|done]. }
    apply keeps_eq_Parameters_size in Hs as <-.
    case_decide; [|injection Hset as <- <-; split; [by apply Hback|done]].
    apply bind_inv in Hset as [(c' & h' & Hc' & Hset)|(e & Hc' & ->)];
      apply get_Parameters_inv in Hc' as [-> Hc'];
      [|split; [by apply Hback|done]].
    assert (c' = {| obj := next_id h; params := items' |}) as ->
      by congruence. simpl in Hset.
    apply bind_inv in Hset as [([] & h' & Hloop & Hset)|(e & Hloop & ->)].
    + pose proof (keeps_updates_set_value_loop _ _ _ _ _ _ _ Hloop) as Hu'.
      pose proof (Hwrites _ _ _ _ _ Hloop) as Hfr.
      apply Parameterized__update_inv in Hset. destruct r as [[]|e].
      * destruct Hset as (_ & Ho & _ & _ & Hup). split.
        -- apply Hback. intros l Hlt. rewrite Ho. by apply Hfr.
        -- rewrite Hup, Hu', Hu, Ho. done.
      * subst h2. split; [by apply Hback|]. by rewrite Hu', Hu.
    + pose proof (keeps_updates_set_value_loop _ _ _ _ _ _ _ Hloop) as Hu'.
      split; [|by rewrite Hu', Hu]. apply Hback. by eapply Hwrites.
Qed.

Lemma od_get_None {V} (d : list (string * V)) k :
  od_get d k = None ↔ k ∉ d.*1.
Proof.
  induction d as [|[k' v] d IH]; simpl.
  - split; [intros _; apply not_elem_of_nil|done].
  - case_decide as Hk.
    + subst. split; [done|]. intros Hn. exfalso. apply Hn. apply list_elem_of_here.
    + rewrite IH, not_elem_of_cons. naive_solver.
Qed.

Lemma od_mem_false {V} (d : list (string * V)) k :
  od_mem d k = false ↔ k ∉ d.*1.
Proof.
  unfold od_mem. rewrite bool_decide_eq_false, <- od_get_None.
  rewrite <- eq_None_not_Some. done.
Qed.

Lemma od_set_fresh {V} (d : list (string * V)) k v :
  k ∉ d.*1 → od_set d k v = d ++ [(k, v)].
Proof.
  induction d as [|[k' v'] d IH]; simpl; [done|].
  rewrite not_elem_of_cons. intros [Hne Hd].
  rewrite decide_False by done. by rewrite IH.
Qed.

Lemma getitem_loop_ok src keys acc :
  NoDup (acc.*1 ++ keys) →
  Forall (λ k, is_Some (od_get src k)) keys →
  getitem_loop src keys acc = inr (acc ++ select_items src keys).
Proof.
  revert acc. induction keys as [|key keys IH]; intros acc Hnd Hknown; cbn [getitem_loop].
  - by rewrite app_nil_r.
  - apply Forall_cons in Hknown as [[p Hp] Hknown].
    assert (key ∉ acc.*1) as Hfresh.
    { apply NoDup_app in Hnd as (_ & Hd & _). intros Hin.
      apply (Hd _ Hin). apply list_elem_of_here. }
    rewrite (proj2 (od_mem_false acc key) Hfresh), Hp.
    rewrite od_set_fresh by done. rewrite IH; [|by rewrite fmap_app, <- app_assoc|done].
    unfold select_items. simpl. rewrite Hp. simpl. by rewrite <- app_assoc.
Qed.

Lemma getitem_loop_inv src keys acc r :
  getitem_loop src keys acc = r → NoDup acc.*1 →
  match r with
  | inr _ => NoDup (acc.*1 ++ keys) ∧ Forall (λ k, is_Some (od_get src k)) keys
  | inl e => ∃ k, k ∈ keys ∧
               ((e = ValueError (msg_duplicate_key k) ∧ ¬ NoDup (acc.*1 ++ keys)) ∨
                (e = ValueError (msg_unknown_key k) ∧ od_get src k = None))
  end.
Proof.
  revert acc r. induction keys as [|key keys IH]; intros acc r <- Hnd; cbn [getitem_loop].
  - rewrite app_nil_r. by split.
  - destruct (od_mem acc key) eqn:Hmem.
    { exists key. split; [apply list_elem_of_here|]. left. split; [done|].
      intros Hd. apply NoDup_app in Hd as (_ & Hd & _).
      apply bool_decide_eq_true in Hmem.
      assert (key ∈ acc.*1) as Hin.
      { destruct (decide (key ∈ acc.*1)) as [|Hn]; [done|].
        apply od_get_None in Hn. rewrite Hn in Hmem. by destruct Hmem. }
      apply (Hd _ Hin). apply list_elem_of_here. }
    apply od_mem_false in Hmem.
    destruct (od_get src key) as [p|] eqn:Hp.
    2:{ exists key. split; [apply list_elem_of_here|]. by right. }
    rewrite od_set_fresh by done.
    assert (NoDup (acc ++ [(key, p)]).*1) as Hnd'.
    { rewrite fmap_app. simpl. apply NoDup_app. split; [done|].
      split; [|apply NoDup_singleton].
      intros x Hx ->%list_elem_of_singleton. done. }
    specialize (IH (acc ++ [(key, p)]) _ eq_refl Hnd').
    rewrite fmap_app, <- app_assoc in IH. simpl in IH.
    destruct (getitem_loop src keys (acc ++ [(key, p)])) as [e|items].
    + destruct IH as (k & Hk & Hcase). exists k.
      split; [by apply list_elem_of_further|done].
    + destruct IH as [Hd Hknown]. split; [done|].
      constructor; [by exists p|done].
Qed.

(** X1.  Selection, [self[keys]].  With pairwise distinct keys that are
    all in the dictionary it returns a new container on the same owner
    whose entries are those of the keys, in the order asked, sharing the
    leaves; nothing else changes.  When it raises, the store is as before
    and the error names a key that was asked twice or a key that the
    dictionary does not have. *)
Theorem Parameters_getitem_selects (h : heap) (self : loc) (c : Parameters')
    (keys : list string) :
  objs h !! self = Some (OParameters c) →
  (NoDup keys → Forall (λ k, is_Some (od_get (params c) k)) keys →
   Parameters_getitem self keys h =
     (Return (next_id h),
      {| objs := <[next_id h :=
                     OParameters {| obj := obj c;
                                    params := select_items (params c) keys |}]>
                   (objs h);
         next_id := S (next_id h);
         updates := updates h; warned := warned h |})) ∧
  (∀ e h', Parameters_getitem self keys h = (Raise e, h') →
     h' = h ∧
     ∃ k, k ∈ keys ∧
       ((e = ValueError (msg_duplicate_key k) ∧ ¬ NoDup keys) ∨
        (e = ValueError (msg_unknown_key k) ∧ od_get (params c) k = None))).
Proof.
  intros Hc. unfold Parameters_getitem, bind.
  rewrite (get_Parameters_ok _ _ _ Hc). split.
  - intros Hnd Hknown. by rewrite (getitem_loop_ok _ _ []).
  - intros e h'.
    pose proof (getitem_loop_inv (params c) keys [] _ eq_refl (NoDup_nil_2))
      as Hinv.
    destruct (getitem_loop (params c) keys []) as [e'|items]; simpl.
    + intros [= <- <-]. done.
    + unfold Parameters_init, alloc, bind, new_id, store, ret. done.
Qed.


Lemma od_get_app_fresh {V} (d : list (string * V)) k v k' :
  od_get (d ++ [(k, v)]) k' =
    match od_get d k' with
    | Some x => Some x
    | None => if decide (k = k') then Some v else None
    end.
Proof.
  induction d as [|[k0 v0] d IH]; simpl; [done|].
  destruct (decide (k0 = k')); [done|apply IH].
Qed.

Lemma select_items_app_fresh src k v keys :
  Forall (λ k', is_Some (od_get src k')) keys →
  select_items (src ++ [(k, v)]) keys = select_items src keys.
Proof.
  unfold select_items. induction 1 as [|k' keys [x Hx] _ IH]; simpl; [done|].
  rewrite od_get_app_fresh, Hx. simpl. f_equal. apply IH.
Qed.

(** X2.  Registration of a leaf, then selection.  Under a name that is
    taken, [_register] raises and leaves the store as it was.  Under a new
    name the entry goes last, the earlier entries keep their place, every
    selection that worked before gives the same leaves, and selecting the
    new name gives a container with exactly that leaf. *)
Theorem register_then_select (h : heap) (self leaf : loc) (c : Parameters')
    (p : Parameter') (name : string) :
  objs h !! self = Some (OParameters c) →
  objs h !! leaf = Some (OParameter p) →
  (is_Some (od_get (params c) name) →
   Parameters__register self (Some name) leaf h
     = (Raise (ValueError (msg_registered name)), h)) ∧
  (od_get (params c) name = None →
   ∃ h',
     Parameters__register self (Some name) leaf h = (Return (), h') ∧
     objs h' = <[self := OParameters {| obj := obj c;
                                        params := params c ++ [(name, leaf)] |}]>
                 (objs h) ∧
     (∀ keys, Forall (λ k, is_Some (od_get (params c) k)) keys →
        select_items (params c ++ [(name, leaf)]) keys
          = select_items (params c) keys) ∧
     ∃ h'',
       Parameters_getitem self [name] h' = (Return (next_id h), h'') ∧
       objs h'' !! next_id h =
         Some (OParameters {| obj := obj c; params := [(name, leaf)] |})).
Proof.
  intros Hc Hp.
  unfold Parameters__register, register_leaf, bind, lookup_obj.
  rewrite Hp. simpl. rewrite (get_Parameters_ok _ _ _ Hc). split.
  - intros Hn. unfold od_mem. by rewrite bool_decide_eq_true_2.
  - intros Hn. unfold od_mem. rewrite bool_decide_eq_false_2
      by (rewrite Hn; by intros [??]).
    rewrite od_set_fresh by (by apply od_get_None).
    eexists. split; [reflexivity|]. split; [done|].
    split; [intros keys; apply select_items_app_fresh|].
    unfold Parameters_getitem, bind, get_Parameters, bind, lookup_obj. simpl.
    rewrite lookup_insert_eq. simpl.
    rewrite od_get_app_fresh, Hn, decide_True by done. simpl.
    unfold Parameters_init, alloc, bind, new_id, store, ret. simpl.
    eexists. split; [reflexivity|]. simpl. by rewrite lookup_insert_eq.
Qed.

Lemma register_items_ok self name items : ∀ c h,
  objs h !! self = Some (OParameters c) →
  Forall (λ kl : string * loc, is_leaf h kl.2 = true) items →
  NoDup ((params c).*1 ++ (prefixed name items).*1) →
  ∃ h',
    register_items self name items h = (Return (), h') ∧
    objs h' = <[self := OParameters {| obj := obj c;
                                       params := params c ++ prefixed name items |}]>
                (objs h) ∧
    next_id h' = next_id h ∧ updates h' = updates h ∧ warned h' = warned h.
Proof.
  induction items as [|[n p] items IH]; intros c h Hc Hleaves Hnd.
  - exists h. split; [done|]. split; [|done]. simpl. rewrite app_nil_r.
    rewrite insert_id; [done|]. rewrite Hc. by destruct c.
  - apply Forall_cons in Hleaves as [Hleaf Hleaves]. simpl in Hleaf.
    pose proof Hleaf as [q Hq]%is_leaf_spec.
    assert (p ≠ self) as Hne by (intros ->; congruence).
    simpl in Hnd.
    assert (key_of name n ∉ (params c).*1) as Hfresh.
    { apply NoDup_app in Hnd as (_ & Hd & _). intros Hin.
      apply (Hd _ Hin). apply list_elem_of_here. }
    set (c1 := {| obj := obj c; params := params c ++ [(key_of name n, p)] |}).
    set (h1 := {| objs := <[self := OParameters c1]> (objs h);
                  next_id := next_id h; updates := updates h;
                  warned := warned h |}).
    destruct (IH c1 h1) as (h' & Hrun & Hobjs & Hrest).
    { simpl. apply lookup_insert_eq. }
    { eapply Forall_impl; [exact Hleaves|]. intros [k l] Hl. simpl in *.
      unfold is_leaf in *. simpl.
      destruct (decide (l = self)) as [->|]; [by rewrite Hc in Hl|].
      by rewrite lookup_insert_ne by done. }
    { simpl. rewrite fmap_app, <- app_assoc. done. }
    exists h'. split; [|split; [|done]].
    + cbn [register_items]. cbv zeta. fold (key_of name n).
      unfold bind at 1, lookup_obj. rewrite Hq.
      unfold bind at 1, register_leaf, bind at 1.
      rewrite (get_Parameters_ok _ _ _ Hc).
      rewrite (proj2 (od_mem_false _ _) Hfresh).
      rewrite od_set_fresh by done. unfold store. exact Hrun.
    + rewrite Hobjs. simpl. rewrite insert_insert_eq.
      by rewrite <- app_assoc.
Qed.

(** X3.  Registration of a container [other] into [self] under [name]:
    when the entries of [other] are leaves and the keys [name.key] (the
    keys themselves without a name) are new and distinct, its leaves are
    appended to the dictionary of [self] in their order, under these keys,
    by reference; nothing else changes and no hook is called. *)
Theorem register_container_appends (h : heap) (self other : loc)
    (c c2 : Parameters') (name : option string) :
  objs h !! self = Some (OParameters c) →
  objs h !! other = Some (OParameters c2) →
  other ≠ self →
  Forall (λ kl : string * loc, is_leaf h kl.2 = true) (params c2) →
  NoDup ((params c).*1 ++ (prefixed name (params c2)).*1) →
  ∃ h',
    Parameters__register self name other h = (Return (), h') ∧
    objs h' = <[self := OParameters {| obj := obj c;
                                       params := params c ++
                                                 prefixed name (params c2) |}]>
                (objs h) ∧
    next_id h' = next_id h ∧ updates h' = updates h ∧ warned h' = warned h.
Proof.
  intros Hc Hc2 Hne Hleaves Hnd.
  unfold Parameters__register, bind, lookup_obj. rewrite Hc2.
  rewrite decide_False by done. by apply register_items_ok.
Qed.


Lemma get_value_loop_length items tr h info :
  (leaf_info items h).1 = Return info →
  ∃ v, get_value_loop items tr h = (Return v, h) ∧
       length v = sum_list info.*2.
Proof.
  revert info. induction items as [|[k l] items IH]; intros info Hinfo.
  - injection Hinfo as <-. by exists [].
  - apply leaf_info_cons_inv in Hinfo as (p & a & info' & Hp & Ha & Hi & ->).
    destruct (IH _ Hi) as (rest & Hrest & Hlen).
    cbn [get_value_loop]. unfold bind at 1.
    unfold Parameter_get_value, bind at 1.
    rewrite (get_Parameter_ok _ _ _ Hp). unfold bind at 1.
    rewrite (get_ndarray_ok _ _ _ Ha).
    destruct tr; unfold ret at 1; unfold bind; rewrite Hrest;
      (eexists; split; [reflexivity|]);
      simpl; rewrite length_app, ?length_map, Hlen; done.
Qed.


Lemma within_nan b : within b Np.nan.
Proof. split; [done|]. unfold Np.gt. by destruct b.2 as [| | |[]]. Qed.

(** X5.  [set_value] of a leaf in natural space, on a vector with one
    component per row of bounds (or a single row of bounds): it stores the
    vector when no component is strictly below or strictly above its
    bounds, and otherwise raises the domain violation and leaves the store
    as it was.  A NaN component is never out of bounds, so a vector of
    NaN is always stored. *)
Theorem Parameter_set_value_decides (h : heap) (self : loc) (p : Parameter')
    (a : ndarray) (theta : list float) :
  objs h !! self = Some (OParameter p) →
  objs h !! value p = Some (ONdarray a) →
  length (bounds p) = 1 ∨ length (bounds p) = length theta →
  Parameter_set_value self theta false h =
    (if decide (inside (bounds p) theta)
     then (Return (),
           {| objs := <[value p :=
                          ONdarray (Np.Ndarray (Np.shape a)
                                      (Np.flat_assign (Np.data a) theta))]>
                        (objs h);
              next_id := next_id h; updates := updates h;
              warned := warned h |})
     else (Raise (ValueError msg_outside_bounds), h)) ∧
  (Forall (λ x, Np.isnan x = true) theta → inside (bounds p) theta).
Proof.
  intros Hp Ha Hlen. split.
  - unfold Parameter_set_value, bind. rewrite (get_Parameter_ok _ _ _ Hp).
    destruct (_outbounds_expand (bounds p) theta Hlen) as (o & -> & Ho).
    simpl. destruct o.
    + rewrite decide_False; [done|]. intros Hin. by apply Ho in Hin.
    + rewrite decide_True by (by apply Ho).
      by rewrite (get_ndarray_ok _ _ _ Ha).
  - intros Hnan. unfold inside.
    assert (length (expand (bounds p) (length theta)) = length theta) as Hl
      by (by apply length_expand).
    revert Hl. generalize (expand (bounds p) (length theta)). clear Hlen.
    induction Hnan as [|x theta Hx _ IH]; intros bs Hl.
    + apply nil_length_inv in Hl as ->. constructor.
    + destruct bs as [|b bs]; [done|]. simpl in Hl.
      constructor; [|apply IH; lia].
      destruct x; try done. apply within_nan.
Qed.

Lemma elem_of_first_seen t tags : t ∈ first_seen tags ↔ t ∈ tags.
Proof.
  induction tags as [|t0 tags IH]; simpl; [done|].
  rewrite !elem_of_cons, list_elem_of_filter, IH.
  destruct (decide (t = t0)); naive_solver.
Qed.

Lemma NoDup_first_seen tags : NoDup (first_seen tags).
Proof.
  induction tags as [|t0 tags IH]; simpl; [constructor|].
  constructor; [|by apply NoDup_filter].
  rewrite list_elem_of_filter. naive_solver.
Qed.

Lemma group_notin t (rs : list (Z * list nat)) : t ∉ rs.*1 → group t rs = [].
Proof.
  induction rs as [|[t0 l] rs IH]; simpl; [done|].
  rewrite not_elem_of_cons. intros [Hne Hn].
  rewrite group_cons_ne by done. by apply IH.
Qed.

Lemma filter_ne_notin (t : Z) (l : list Z) :
  t ∉ l → filter (λ t', t' ≠ t) l = l.
Proof.
  induction l as [|x l IH]; [done|].
  rewrite not_elem_of_cons. intros [Hne Hn].
  rewrite filter_cons_True by done. by rewrite IH.
Qed.

Lemma concat_split_tag (g : Z → list nat) (t : Z) (F : list Z) :
  NoDup F → (t ∉ F → g t = []) →
  g t ++ concat (g <$> filter (λ t', t' ≠ t) F) ≡ₚ concat (g <$> F).
Proof.
  induction F as [|f F IH]; intros Hnd Hg.
  - rewrite Hg by apply not_elem_of_nil. done.
  - apply NoDup_cons in Hnd as [Hf Hnd].
    destruct (decide (f = t)) as [->|Hne].
    + rewrite filter_cons_False by (intros ?; done).
      by rewrite filter_ne_notin.
    + rewrite filter_cons_True by done. simpl.
      rewrite <- IH; [|done|].
      * rewrite !app_assoc. apply Permutation_app; [apply Permutation_app_comm|done].
      * intros Hn. apply Hg. rewrite not_elem_of_cons. split; [congruence|done].
Qed.

Lemma concat_groups (rs : list (Z * list nat)) :
  concat ((λ t, group t rs) <$> first_seen rs.*1) ≡ₚ concat rs.*2.
Proof.
  induction rs as [|[t l] rs IH]; [done|].
  simpl. rewrite group_cons_eq, <- IH, <- app_assoc. f_equiv.
  rewrite <- (concat_split_tag (λ t', group t' rs) t (first_seen rs.*1)).
  - match goal with
    | |- _ ++ concat ?A ≡ₚ _ ++ concat ?B => assert (A = B) as ->; [|done]
    end.
    apply list_fmap_ext. intros i t' Hi.
    apply list_elem_of_lookup_2, list_elem_of_filter in Hi as [Hne _].
    by apply group_cons_ne.
  - apply NoDup_first_seen.
  - intros Hn. apply group_notin. by rewrite <- elem_of_first_seen.
Qed.

Lemma concat_leaf_ranges info a :
  concat (leaf_ranges info a).*2 = seq a (sum_list info.*2).
Proof.
  revert a. induction info as [|[t s] info IH]; intros a; simpl; [done|].
  by rewrite IH, seq_app.
Qed.

(** X6.  The groups of [blocks] partition the positions of the vector:
    taken together they are the indices [0 .. size-1], each exactly once
    (so no index is in two groups and none is missing). *)
Theorem blocks_partition (h : heap) (self : loc) (c : Parameters')
    (info : list (Z * nat)) :
  objs h !! self = Some (OParameters c) →
  (leaf_info (params c) h).1 = Return info →
  ∃ groups,
    Parameters_blocks self h = (Return groups, h) ∧
    Parameters_size self h = (Return (sum_list info.*2), h) ∧
    concat groups ≡ₚ seq 0 (sum_list info.*2) ∧
    NoDup (concat groups).
Proof.
  intros Hc Hinfo.
  destruct (leaf_info (params c) h) as [r h1] eqn:E.
  pose proof (leaf_info_reads _ _ _ _ E) as ->. simpl in Hinfo. subst r.
  assert (concat (blocks_loop info 0 []).*2 ≡ₚ seq 0 (sum_list info.*2))
    as Hperm.
  { assert ((leaf_ranges info 0).*1 = info.*1) as Hk.
    { generalize 0. clear. induction info as [|[t s] info IH]; intros a;
        simpl; [done|]. by rewrite IH. }
    rewrite blocks_loop_spec. unfold blocks_spec.
    rewrite <- list_fmap_compose.
    rewrite <- concat_leaf_ranges, <- concat_groups, Hk. done. }
  exists (blocks_loop info 0 []).*2. split_and!.
  - unfold Parameters_blocks, Parameters_blocks_dict, bind.
    by rewrite (get_Parameters_ok _ _ _ Hc), E.
  - unfold Parameters_size, bind.
    by rewrite (get_Parameters_ok _ _ _ Hc), E.
  - done.
  - rewrite Hperm. apply NoDup_seq.
Qed.

Lemma leaf_info_leaves items h info :
  (leaf_info items h).1 = Return info →
  Forall (λ kl : string * loc, is_leaf h kl.2 = true) items ∧
  length info = length items.
Proof.
  revert info. induction items as [|[k l] items IH]; intros info Hinfo.
  - injection Hinfo as <-. by split.
  - apply leaf_info_cons_inv in Hinfo as (p & a & info' & Hp & Ha & Hi & ->).
    destruct (IH _ Hi) as [Hl Hlen]. split; [|simpl; by rewrite Hlen].
    constructor; [|done]. unfold is_leaf. simpl. by rewrite Hp.
Qed.

Lemma leaf_info_cons_ok k l items h p a info :
  objs h !! l = Some (OParameter p) →
  objs h !! value p = Some (ONdarray a) →
  (leaf_info items h).1 = Return info →
  (leaf_info ((k, l) :: items) h).1
    = Return ((block p, length (Np.data a)) :: info).
Proof.
  intros Hp Ha Hi. cbn [leaf_info]. unfold bind at 1.
  rewrite (get_Parameter_ok _ _ _ Hp). unfold bind at 1.
  rewrite (get_ndarray_ok _ _ _ Ha). unfold bind.
  destruct (leaf_info items h) as [r h1]. simpl in Hi. by subst r.
Qed.

Lemma leaf_info_store_leaf items h (l : loc) p p' info :
  objs h !! l = Some (OParameter p) →
  l ∉ items.*2 →
  (leaf_info items h).1 = Return info →
  (leaf_info items {| objs := <[l := OParameter p']> (objs h);
                      next_id := next_id h; updates := updates h;
                      warned := warned h |}).1
  = Return info.
Proof.
  intros Hl. revert info.
  induction items as [|[k l0] items IH]; intros info Hnotin Hinfo; [done|].
  rewrite fmap_cons, not_elem_of_cons in Hnotin. destruct Hnotin as [Hne Hn].
  simpl in Hne.
  apply leaf_info_cons_inv in Hinfo as (p0 & a0 & info' & Hp0 & Ha0 & Hi & ->).
  assert (value p0 ≠ l) by (intros E; rewrite E in Ha0; congruence).
  apply leaf_info_cons_ok; simpl.
  - by rewrite lookup_insert_ne.
  - by rewrite lookup_insert_ne.
  - by apply IH.
Qed.

Lemma set_block_loop_ok items : ∀ tags h info,
  length tags = length items →
  NoDup items.*2 →
  (leaf_info items h).1 = Return info →
  ∃ h',
    set_block_loop (zip tags items.*2) h = (Return (), h') ∧
    (leaf_info items h').1 = Return (zip tags info.*2) ∧
    (∀ l : loc, l ∉ items.*2 → objs h' !! l = objs h !! l) ∧
    next_id h' = next_id h ∧ updates h' = updates h ∧ warned h' = warned h.
Proof.
  induction items as [|[k l] items IH]; intros tags h info Hlen Hnd Hinfo.
  - injection Hinfo as <-. destruct tags; [|done]. by exists h.
  - destruct tags as [|tag tags]; [done|]. simpl in Hlen.
    apply leaf_info_cons_inv in Hinfo as (p & a & info' & Hp & Ha & Hi & ->).
    rewrite fmap_cons in Hnd. apply NoDup_cons in Hnd as [Hnotin Hnd].
    simpl in Hnotin.
    set (p1 := {| value := value p; prior := prior p; block := tag;
                  domain := domain p; transform := transform p;
                  bounds := bounds p |}).
    set (h1 := {| objs := <[l := OParameter p1]> (objs h);
                  next_id := next_id h; updates := updates h;
                  warned := warned h |}).
    destruct (IH tags h1 info') as (h' & Hrun & Hinfo' & Hframe & Hrest);
      [lia|done|by apply (leaf_info_store_leaf _ _ _ p)|].
    assert (value p ≠ l) as Hvl by (intros E; rewrite E in Ha; congruence).
    assert (value p ∉ items.*2) as Hvn.
    { apply leaf_info_leaves in Hi as [Hleaves _].
      intros (kl & Hkl & Hin)%list_elem_of_fmap.
      rewrite Forall_forall in Hleaves. apply Hleaves in Hin.
      unfold is_leaf in Hin. rewrite <- Hkl, Ha in Hin. done. }
    exists h'. split_and!.
    + simpl. unfold bind at 1. rewrite (get_Parameter_ok _ _ _ Hp).
      unfold bind, store. exact Hrun.
    + apply (leaf_info_cons_ok k l items h' p1 a); [| |done].
      * rewrite Hframe by done. apply lookup_insert_eq.
      * rewrite Hframe by done. simpl. by rewrite lookup_insert_ne.
    + intros l0. rewrite fmap_cons, not_elem_of_cons. intros [Hne Hn].
      rewrite Hframe by done. simpl. by rewrite lookup_insert_ne.
    + by destruct Hrest as (-> & _).
    + by destruct Hrest as (_ & -> & _).
    + by destruct Hrest as (_ & _ & ->).
Qed.

(** X7.  The setter and the getter of [block], for a container whose
    entries are distinct leaves.  With one tag per leaf the setter
    returns, the getter then gives exactly these tags, the arrays (the
    values) and the log of the hook are as before; a single tag stands
    for that tag for every leaf; a list of another length raises and
    leaves the store as it was. *)
Theorem block_setter_getter (h : heap) (self : loc) (c : Parameters')
    (info : list (Z * nat)) :
  objs h !! self = Some (OParameters c) →
  (leaf_info (params c) h).1 = Return info →
  NoDup (params c).*2 →
  (∀ tags, length tags = length (params c) →
     ∃ h',
       Parameters_set_block self (inr tags) h = (Return (), h') ∧
       Parameters_block self h' = (Return tags, h') ∧
       (Parameters_size self h').1 = (Parameters_size self h).1 ∧
       (∀ (l : loc) a, objs h !! l = Some (ONdarray a) →
                       objs h' !! l = Some (ONdarray a)) ∧
       updates h' = updates h) ∧
  (∀ tag, Parameters_set_block self (inl tag) h =
          Parameters_set_block self
            (inr (replicate (length (params c)) tag)) h) ∧
  (∀ tags, length tags ≠ length (params c) →
     Parameters_set_block self (inr tags) h
       = (Raise (ValueError msg_block), h)).
Proof.
  intros Hc Hinfo Hnd. split_and!.
  - intros tags Hlen.
    destruct (set_block_loop_ok _ tags h info Hlen Hnd Hinfo)
      as (h' & Hrun & Hinfo' & Hframe & Hn & Hu & Hw).
    pose proof (leaf_info_leaves _ _ _ Hinfo) as [Hleaves Hlen'].
    assert (∀ l : loc, is_leaf h l = false → l ∉ (params c).*2) as Hnl.
    { intros l Hl (kl & -> & Hin)%list_elem_of_fmap.
      rewrite Forall_forall in Hleaves. apply Hleaves in Hin. congruence. }
    assert (objs h' !! self = Some (OParameters c)) as Hc'.
    { rewrite Hframe; [done|]. apply Hnl. unfold is_leaf. by rewrite Hc. }
    assert (∀ items, leaf_info items h' = ((leaf_info items h').1, h'))
      as Hreads.
    { intros items. destruct (leaf_info items h') as [r h1] eqn:E.
      by apply leaf_info_reads in E as ->. }
    assert (∀ items, leaf_info items h = ((leaf_info items h).1, h))
      as Hreads0.
    { intros items. destruct (leaf_info items h) as [r h1] eqn:E.
      by apply leaf_info_reads in E as ->. }
    exists h'. split_and!.
    + unfold Parameters_set_block, bind.
      rewrite (get_Parameters_ok _ _ _ Hc). by rewrite decide_True.
    + unfold Parameters_block, bind. rewrite (get_Parameters_ok _ _ _ Hc').
      rewrite Hreads, Hinfo'. unfold ret. do 2 f_equal.
      apply fst_zip. rewrite length_fmap. lia.
    + unfold Parameters_size, bind.
      rewrite (get_Parameters_ok _ _ _ Hc'), (get_Parameters_ok _ _ _ Hc).
      rewrite Hreads, Hreads0, Hinfo', Hinfo. unfold ret. simpl.
      by rewrite snd_zip by (rewrite length_fmap; lia).
    + intros l a Ha. rewrite Hframe; [done|]. apply Hnl.
      unfold is_leaf. by rewrite Ha.
    + done.
  - intros tag. unfold Parameters_set_block, bind.
    by rewrite (get_Parameters_ok _ _ _ Hc).
  - intros tags Hlen. unfold Parameters_set_block, bind.
    rewrite (get_Parameters_ok _ _ _ Hc). by rewrite decide_False.
Qed.

Lemma get_value_loop_holds items vs h :
  holds h items vs → get_value_loop items false h = (Return (concat vs), h).
Proof.
  induction 1 as [|[k l] v items vs (p & a & Hp & Ha & <-) _ IH]; [done|].
  simpl in Hp. cbn [get_value_loop]. unfold bind at 1, Parameter_get_value, bind at 1.
  rewrite (get_Parameter_ok _ _ _ Hp). unfold bind at 1.
  rewrite (get_ndarray_ok _ _ _ Ha). unfold ret at 1, bind.
  by rewrite IH.
Qed.

Lemma concat_partition_slices sizes (theta : list float) :
  concat (partition_slices sizes theta) = take (sum_list sizes) theta.
Proof.
  revert theta. induction sizes as [|n sizes IH]; intros theta; simpl.
  - by rewrite take_0.
  - rewrite IH. rewrite <- (take_drop n (take (n + sum_list sizes) theta)).
    rewrite take_take, Nat.min_l by lia. f_equal.
    rewrite skipn_firstn_comm. f_equal. lia.
Qed.

Lemma leaf_values_cons h k l items :
  leaf_values h ((k, l) :: items) =
    match objs h !! l with
    | Some (OParameter p) => value p :: leaf_values h items
    | _ => leaf_values h items
    end.
Proof. unfold leaf_values. simpl. by destruct (objs h !! l) as [[]|]. Qed.

Lemma leaf_values_values_only h h' items :
  values_only h h' → leaf_values h' items = leaf_values h items.
Proof.
  intros (_ & _ & _ & Hl).
  induction items as [|[k l] items IH]; [done|].
  rewrite !leaf_values_cons, IH.
  specialize (Hl l). destruct (objs h !! l) as [[]|] eqn:E;
    [destruct Hl as (a' & -> & _)|rewrite Hl..]; done.
Qed.

Lemma set_value_loop_holds theta items : ∀ a h info h',
  (leaf_info items h).1 = Return info →
  NoDup (leaf_values h items) →
  a + sum_list info.*2 ≤ length theta →
  set_value_loop items theta false a h = (Return (), h') →
  holds h' items (partition_slices info.*2 (drop a theta)) ∧
  ∀ v : loc, v ∉ leaf_values h items → objs h' !! v = objs h !! v.
Proof.
  induction items as [|[k l] items IH]; intros a h info h' Hinfo Hnd Hlen Hrun.
  - injection Hinfo as <-. injection Hrun as <-. split; [constructor|done].
  - apply leaf_info_cons_inv in Hinfo as (p & arr & info' & Hp & Ha & Hi & ->).
    change (a + (length (Np.data arr) + sum_list info'.*2) ≤ length theta)
      in Hlen.
    cbn [set_value_loop] in Hrun.
    apply bind_inv in Hrun as [(size & h1 & Hs & Hrun)|(e & _ & [=])].
    pose proof (Parameter_size_reads _ _ _ _ Hs) as ->.
    apply Parameter_size_inv in Hs as (p' & arr' & Hp' & Ha' & ->).
    assert (p' = p) as -> by congruence.
    assert (arr' = arr) as -> by congruence.
    apply bind_inv in Hrun as [([] & h1 & Hset & Hrun)|(e & _ & [=])].
    pose proof (keeps_values_Parameter_set_value _ _ _ _ _ _ Hset) as Hvo.
    pose proof (Parameter_set_value_inv _ _ _ _ _ _ Hp Hset)
      as (arr' & Ha'' & _ & Hobjs).
    assert (arr' = arr) as -> by congruence. simpl in Hobjs.
    rewrite leaf_values_cons, Hp in Hnd.
    apply NoDup_cons in Hnd as [Hvp Hnd].
    destruct (IH (a + length (Np.data arr)) h1 info' h') as [Hholds Hframe].
    { by rewrite (leaf_info_values_only _ _ _ Hvo). }
    { by rewrite (leaf_values_values_only _ _ _ Hvo). }
    { lia. }
    { done. }
    rewrite (leaf_values_values_only _ _ _ Hvo) in Hframe.
    pose proof (keeps_values_set_value_loop _ _ _ _ _ _ _ Hrun) as Hvo'.
    split.
    + simpl. constructor.
      * exists p. eexists. split_and!.
        -- destruct Hvo' as (_ & _ & _ & Hl'). specialize (Hl' l).
           destruct Hvo as (_ & _ & _ & Hl). specialize (Hl l).
           rewrite Hp in Hl. rewrite Hl in Hl'. exact Hl'.
        -- rewrite Hframe by done. rewrite Hobjs. apply lookup_insert_eq.
        -- simpl. unfold slice.
           replace (a + length (Np.data arr) - a) with (length (Np.data arr))
             by lia.
           apply flat_assign_full. rewrite length_take, length_drop. lia.
      * by rewrite drop_drop.
    + intros v Hv. rewrite leaf_values_cons, Hp in Hv.
      apply not_elem_of_cons in Hv as [Hne Hv].
      rewrite Hframe by done. rewrite Hobjs. by rewrite lookup_insert_ne.
Qed.

(** X8.  [set_value] then [get_value] on a container whose leaves hold
    pairwise distinct arrays: after a [set_value] in natural space that
    returns, [get_value] returns the vector that was set. *)
Theorem set_value_then_get_value (h h' : heap) (self : loc)
    (c : Parameters') (info : list (Z * nat)) (theta : list float) :
  objs h !! self = Some (OParameters c) →
  (leaf_info (params c) h).1 = Return info →
  NoDup (leaf_values h (params c)) →
  Parameters_set_value self (Np.Ndarray [length theta] theta) false h
    = (Return (), h') →
  Parameters_get_value self false h' = (Return theta, h').
Proof.
  intros Hc Hinfo Hnd Hrun.
  unfold Parameters_set_value in Hrun. simpl in Hrun.
  apply bind_inv in Hrun as [(size & h1 & Hs & Hrun)|(e & _ & [=])].
  pose proof (keeps_eq_Parameters_size _ _ _ _ Hs) as <-.
  assert (size = sum_list info.*2) as ->.
  { unfold Parameters_size, bind in Hs.
    rewrite (get_Parameters_ok _ _ _ Hc) in Hs.
    destruct (leaf_info (params c) h) as [r h1]. simpl in Hinfo. subst r.
    by injection Hs as <-. }
  case_decide as Hshape; [|done]. injection Hshape as Hlen.
  apply bind_inv in Hrun as [(c' & h1 & Hc' & Hrun)|(e & _ & [=])].
  apply get_Parameters_inv in Hc' as [-> Hc'].
  assert (c' = c) as -> by congruence.
  apply bind_inv in Hrun as [([] & h1 & Hloop & Hup)|(e & _ & [=])].
  destruct (set_value_loop_holds theta (params c) 0 h info h1)
    as [Hholds Hframe]; [done|done|lia|done|].
  pose proof (keeps_values_set_value_loop _ _ _ _ _ _ _ Hloop) as Hvo.
  apply Parameterized__update_inv in Hup as (_ & Hobjs & _).
  assert (objs h' !! self = Some (OParameters c)) as Hself.
  { rewrite Hobjs. destruct Hvo as (_ & _ & _ & Hl). specialize (Hl self).
    by rewrite Hc in Hl. }
  unfold Parameters_get_value, bind. rewrite (get_Parameters_ok _ _ _ Hself).
  rewrite (get_value_loop_holds _ (partition_slices info.*2 theta)).
  - rewrite concat_partition_slices, <- Hlen. by rewrite firstn_all.
  - unfold holds in *. rewrite Hobjs. exact Hholds.
Qed.




Lemma setitem_rows_expand (out rows : list (float * float)) a n :
  a + n ≤ length out →
  length (expand rows n) = n →
  setitem_rows out a (a + n) rows
    = inr (take a out ++ expand rows n ++ drop (a + n) out).
Proof.
  intros Hlen Hexp. unfold setitem_rows, slice.
  replace (a + n - a) with n by lia.
  rewrite length_take, length_drop, Nat.min_l by lia.
  destruct rows as [|r [|r' rows]]; simpl in *.
  - subst n. done.
  - case_decide as Hn; [|done]. subst n. done.
  - by rewrite decide_True.
Qed.

Lemma leaf_rows_cons h k l items p a :
  objs h !! l = Some (OParameter p) →
  objs h !! value p = Some (ONdarray a) →
  leaf_rows h ((k, l) :: items)
    = expand (bounds p) (length (Np.data a)) ++ leaf_rows h items.
Proof. intros Hp Ha. unfold leaf_rows. simpl. by rewrite Hp, Ha. Qed.

Lemma get_bounds_loop_ok items : ∀ a out h,
  Forall (λ kl : string * loc, leaf_inv kl.2 h) items →
  a + length (leaf_rows h items) ≤ length out →
  get_bounds_loop items false a out h =
    (Return (take a out ++ leaf_rows h items
             ++ drop (a + length (leaf_rows h items)) out), h).
Proof.
  induction items as [|[k l] items IH]; intros a out h Hinv Hlen.
  - simpl. rewrite Nat.add_0_r, take_drop. done.
  - apply Forall_cons in Hinv as [(p & arr & d & Hp & Ha & _ & _ & Hin) Hinv].
    simpl in Hp. rewrite (leaf_rows_cons _ _ _ _ _ _ Hp Ha) in *.
    pose proof (Forall2_length _ _ _ Hin) as Hexp.
    rewrite length_app, Hexp in Hlen.
    cbn [get_bounds_loop]. unfold bind at 1.
    rewrite (get_Parameter_ok _ _ _ Hp). unfold bind at 1.
    rewrite (get_ndarray_ok _ _ _ Ha). cbv zeta.
    rewrite setitem_rows_expand by (done || lia).
    unfold bind at 1, lift, ret at 1.
    rewrite IH; [|done|].
    2:{ rewrite !length_app, length_take, length_drop, Hexp. lia. }
    f_equal. f_equal.
    set (n := length (Np.data arr)) in *.
    set (E := expand (bounds p) n) in *.
    set (R := leaf_rows h items) in *.
    rewrite length_app, Hexp.
    rewrite (app_assoc (take a out) E).
    rewrite take_app_length' by (rewrite length_app, length_take, Hexp; lia).
    rewrite <- !app_assoc. do 3 f_equal.
    rewrite (app_assoc (take a out) E).
    rewrite drop_app_ge by (rewrite length_app, length_take, Hexp; lia).
    rewrite length_app, length_take, Hexp, drop_drop. f_equal. lia.
Qed.

Lemma leaf_inv_holds items h :
  Forall (λ kl : string * loc, leaf_inv kl.2 h) items →
  ∃ vs, holds h items vs ∧ Forall2 within (leaf_rows h items) (concat vs).
Proof.
  induction 1 as [|[k l] items (p & a & d & Hp & Ha & _ & _ & Hin) _ IH].
  - exists []. split; constructor.
  - destruct IH as (vs & Hholds & Hw). simpl in Hp.
    exists (Np.data a :: vs). split.
    + constructor; [|done]. by exists p, a.
    + rewrite (leaf_rows_cons _ _ _ _ _ _ Hp Ha). simpl.
      by apply Forall2_app.
Qed.

(** X10.  [get_bounds] and [get_value] of a container in natural space,
    when every leaf lies inside its bounds (what the leaves keep through
    their life): both return, the bounds have one row per component of
    the value, and every component lies within its row: it is neither
    below the lower end nor above the upper end. *)
Theorem get_value_within_get_bounds (h : heap) (self : loc)
    (c : Parameters') :
  objs h !! self = Some (OParameters c) →
  Forall (λ kl : string * loc, leaf_inv kl.2 h) (params c) →
  ∃ rows v,
    Parameters_get_bounds self false h = (Return rows, h) ∧
    Parameters_get_value self false h = (Return v, h) ∧
    Parameters_size self h = (Return (length v), h) ∧
    Forall2 within rows v.
Proof.
  intros Hc Hinv.
  destruct (leaf_inv_holds _ _ Hinv) as (vs & Hholds & Hw).
  pose proof (get_value_loop_holds _ _ _ Hholds) as Hget.
  assert (Parameters_get_value self false h = (Return (concat vs), h)) as Hv.
  { unfold Parameters_get_value, bind. by rewrite (get_Parameters_ok _ _ _ Hc). }
  assert (Parameters_size self h = (Return (length (concat vs)), h)) as Hs.
  { destruct (Parameters_size self h) as [r h1] eqn:E.
    pose proof (keeps_eq_Parameters_size _ _ _ _ E) as <-.
    unfold Parameters_size, bind in E.
    rewrite (get_Parameters_ok _ _ _ Hc) in E.
    destruct (leaf_info (params c) h) as [[info|e] h2] eqn:Ei.
    - injection E as <-.
      destruct (get_value_loop_length (params c) false h info)
        as (v' & Hv' & Hlen); [by rewrite Ei|].
      rewrite Hget in Hv'. injection Hv' as <-. by rewrite Hlen.
    - exfalso. clear -Hinv Ei.
      revert e h2 Ei. induction Hinv as [|[k l] items (p & a & d & Hp & Ha & _) _ IH];
        intros e h2; [done|].
      simpl in Hp. cbn [leaf_info]. unfold bind at 1.
      rewrite (get_Parameter_ok _ _ _ Hp). unfold bind at 1.
      rewrite (get_ndarray_ok _ _ _ Ha). unfold bind.
      destruct (leaf_info items h) as [[info|e'] h3] eqn:E; [done|].
      intros _. by eapply IH. }
  exists (leaf_rows h (params c)), (concat vs). split_and!; try done.
  unfold Parameters_get_bounds, bind. rewrite Hs.
  rewrite (get_Parameters_ok _ _ _ Hc).
  pose proof (Forall2_length _ _ _ Hw) as Hlen.
  rewrite get_bounds_loop_ok by (done || (rewrite length_replicate; lia)).
  simpl. rewrite Hlen, <- (length_replicate (length (concat vs))
                               (Np.ninf, Np.inf)) at 1.
  by rewrite drop_all, app_nil_r.
Qed.

End Proofs.

(** * The claims on the example registry *)

Import Example.

Lemma blocks_groups_by_tag_witness :
  let h := (run three_leaves_tagged).2 in
  Parameters_blocks_dict 1 h =
    (Return (blocks_spec [(0%Z, 2); (1%Z, 1); (0%Z, 3)]), h).
Proof.
  intros h.
  refine (proj1 (blocks_groups_by_tag h 1 _ _ _ _)); vm_compute; reflexivity.
Defined.

Lemma blocks_2_1_3_counterexample :
  let h := (run three_leaves_tagged).2 in
  (run three_leaves_tagged).1 = Return 1 ∧
  (do c <- get_Parameters 1; leaf_info (params c)) h
    = (Return [(0%Z, 2); (1%Z, 1); (0%Z, 3)], h) ∧
  (Parameters_blocks_dict 1 h).1 ≠ Return [(0%Z, [0; 1; 5; 6; 7]); (1%Z, [2])].
Proof.
  split; [vm_compute; reflexivity|]. split; [vm_compute; reflexivity|].
  vm_compute. discriminate.
Qed.

Lemma Parameters_set_prior_empty_counterexample :
  let h := (run Parameterized_init).2 in
  objs h !! 1 = Some (OParameters {| obj := 0; params := [] |}) ∧
  Parameters_set_prior 1 (Some "uniform") [(Np.of_Z 0, Np.of_Z 1)] h
    = (Return (), {| objs := objs h; next_id := next_id h;
                     updates := [(0, objs h)]; warned := [] |}).
Proof. split; vm_compute; reflexivity. Qed.

Lemma set_prior_overlap_counterexample :
  let h := (run three_leaves).2 in
  let support := (Np.of_Z (-1), Np.of_Z 1) in
  (∃ p, objs h !! 5 = Some (OParameter p) ∧
        BOUNDS (domain p) = Some (Np.of_Z 0, Np.inf)) ∧
  within (Np.of_Z 0, Np.inf) (Np.of_Z 1) ∧ within support (Np.of_Z 1) ∧
  (Parameter_set_prior 5 (Some "uniform") [support] h).1
    = Raise (ValueError msg_outside_domain).
Proof.
  split; [eexists; split; vm_compute; reflexivity|].
  repeat split; vm_compute; reflexivity.
Qed.

Lemma Parameter_init_raises_outside_domain_witness :
  let h := (run (alloc (ONdarray (vec [-1]%Z)))).2 in
  ∃ h', Parameter_init 0 POSITIVE None 0%Z h
          = (Raise (ValueError msg_outside_bounds), h') ∧
        objs h' !! 0 = Some (ONdarray (vec [-1]%Z)).
Proof.
  intros h.
  refine (proj1 (Parameter_init_raises_outside_domain POSITIVE identity
                   (Np.of_Z 0, Np.inf) _ _) h 0 (vec [-1]%Z) None 0%Z _ _ _).
  - reflexivity.
  - reflexivity.
  - apply (bool_decide_unpack _). vm_compute. exact I.
  - vm_compute. reflexivity.
  - exists (Np.of_Z (-1)). split; [apply list_elem_of_here|].
    left. vm_compute. reflexivity.
Defined.

Lemma set_value_get_value_idempotent_witness :
  let h := (run three_leaves).2 in
  (do v <- Parameter_get_value 3 false; Parameter_set_value 3 v false) h
    = (Return (), h) ∧
  Parameter_get_value 3 false h = (Return (Np.data (vec [1; 2]%Z)), h).
Proof.
  intros h.
  refine (set_value_get_value_idempotent h 3 _ (vec [1; 2]%Z) _ _ _).
  - vm_compute. reflexivity.
  - vm_compute. reflexivity.
  - vm_compute. reflexivity.
Defined.

Lemma Parameters_set_prior_by_leaf_count_witness :
  let h := (run (three_leaves;; Parameters_getitem 1 ["b"])).2 in
  let args := [(Np.of_Z 1, Np.of_Z 2)] in
  Parameters_set_prior 8 (Some "uniform") args h =
    (Parameter_set_prior 5 (Some "uniform") args;; Parameterized__update 0) h.
Proof.
  intros h args.
  refine (proj1 (Parameters_set_prior_by_leaf_count h 8
                   {| obj := 0; params := [("b", 5)] |}
                   (Some "uniform") args _)).
  vm_compute. reflexivity.
Defined.

Lemma set_prior_domain_mismatch_iff_witness :
  let h := (run three_leaves).2 in
  let support := (Np.of_Z (-1), Np.of_Z 1) in
  let d := (Np.of_Z 0, Np.inf) in
  (Parameter_set_prior 5 (Some "uniform") [support] h).1
    = Raise (ValueError msg_outside_domain)
  ↔ ∃ r, r ∈ [support] ∧ ¬ (within d r.1 ∧ within d r.2).
Proof.
  intros h support d.
  refine (proj1 (set_prior_domain_mismatch_iff h 5 _ "uniform" uniform
                   [support] [support] d _ _ _ _));
    vm_compute; reflexivity.
Defined.





Lemma Parameters_set_value_slices_witness :
  let h := (run three_leaves).2 in
  Parameters_set_value 1 (vec [1; 2]%Z) false h
    = (Raise (ValueError msg_number), h).
Proof.
  intros h.
  refine (proj1 (Parameters_set_value_slices h 1 _ _ false _ _)
                (vec [1; 2]%Z) _).
  - vm_compute. reflexivity.
  - vm_compute. reflexivity.
  - vm_compute. discriminate.
Defined.

Lemma failing_operation_effect_witness :
  let h := (run three_leaves).2 in
  let op := SetValue 1 (vec [7; 8; -1; 9; 9; 9]%Z) false in
  let h' := (perform op h).2 in
  (ValueError msg_outside_bounds = ValueError msg_number → h' = h) ∧
  values_only h h'.
Proof.
  intros h op h'.
  refine (failing_operation_effect op h h' (ValueError msg_outside_bounds) _ _).
  - vm_compute. reflexivity.
  - apply domain_violation.
Defined.

Lemma container_set_value_partial_counterexample :
  let h := (run three_leaves).2 in
  let r := Parameters_set_value 1 (vec [7; 8; -1; 9; 9; 9]%Z) false h in
  objs h !! 1 = Some (OParameters {| obj := 0;
                                     params := [("a", 3); ("b", 5); ("c", 7)] |}) ∧
  r.1 = Raise (ValueError msg_outside_bounds) ∧
  (Parameter_get_value 3 false h).1 = Return (Np.data (vec [1; 2]%Z)) ∧
  (Parameter_get_value 3 false r.2).1 = Return (Np.data (vec [7; 8]%Z)) ∧
  let g := (run two_owners).2 in
  let r' := Parameters__register 9 (Some "s") 1 g in
  objs g !! 9 = Some (OParameters {| obj := 8; params := [("s.b", 11)] |}) ∧
  r'.1 = Raise (ValueError (msg_registered "s.b")) ∧
  objs r'.2 !! 9 =
    Some (OParameters {| obj := 8; params := [("s.b", 11); ("s.a", 3)] |}).
Proof. repeat split; vm_compute; reflexivity. Qed.

Lemma copy_is_independent_witness :
  let h := (run three_leaves).2 in
  ∃ new h1,
    Parameterized_copy 8 0 None false h = (Return new, h1) ∧
    objs h !! new = None ∧
    ∀ theta transformed r h2,
      Parameterized_copy 8 0 (Some theta) transformed h = (r, h2) →
      ∀ l, is_Some (objs h !! l) → objs h2 !! l = objs h !! l.
Proof.
  intros h.
  refine (match copy_is_independent h 0 _ 8 _ _ _
          with ex_intro _ new (ex_intro _ h1 (ex_intro _ o' (ex_intro _ c' Hpost)))
               => _ end).
  - apply (bool_decide_unpack _). vm_compute. exact I.
  - vm_compute. reflexivity.
  - vm_compute. lia.
  - destruct Hpost as (Hrun & Hnew & _ & _ & _ & _ & _ & Hset).
    exists new, h1. split; [exact Hrun|]. split; [exact Hnew|].
    intros theta tr r h2 Hcopy.
    destruct (Hset theta tr) as [Heq Hframe]. rewrite Heq in Hcopy.
    unfold bind in Hcopy.
    destruct (Parameters_set_value (self_params o') theta tr h1)
      as [[[]|err] h3] eqn:E; injection Hcopy as _ <-; by eapply Hframe.
Defined.

Lemma Parameters_getitem_selects_witness :
  let h := (run three_leaves).2 in
  let c := {| obj := 0; params := [("a", 3); ("b", 5); ("c", 7)] |} in
  Parameters_getitem 1 ["c"; "a"] h =
    (Return (next_id h),
     {| objs := <[next_id h :=
                    OParameters {| obj := obj c;
                                   params := select_items (params c) ["c"; "a"] |}]>
                  (objs h);
        next_id := S (next_id h);
        updates := updates h; warned := warned h |}).
Proof.
  intros h c.
  refine (proj1 (Parameters_getitem_selects h 1 c ["c"; "a"] _) _ _).
  - vm_compute. reflexivity.
  - apply (bool_decide_unpack _). vm_compute. exact I.
  - apply (bool_decide_unpack _). vm_compute. exact I.
Defined.

Lemma register_then_select_witness :
  let h := (run three_leaves).2 in
  ∃ h', Parameters__register 1 (Some "d") 3 h = (Return (), h') ∧
        (Parameters_getitem 1 ["d"] h').1 = Return (next_id h).
Proof.
  intros h.
  refine (match proj2 (register_then_select h 1 3
                         {| obj := 0; params := [("a", 3); ("b", 5); ("c", 7)] |}
                         _ "d" _ _) _
          with ex_intro _ h' Hpost => _ end).
  - vm_compute. reflexivity.
  - vm_compute. reflexivity.
  - vm_compute. reflexivity.
  - destruct Hpost as (Hrun & _ & _ & h'' & Hget & _).
    exists h'. split; [exact Hrun|]. by rewrite Hget.
Defined.

Lemma register_container_appends_witness :
  let g := (run two_owners).2 in
  let c := {| obj := 8; params := [("s.b", 11)] |} in
  let c2 := {| obj := 0; params := [("a", 3); ("b", 5); ("c", 7)] |} in
  ∃ h',
    Parameters__register 9 (Some "t") 1 g = (Return (), h') ∧
    objs h' = <[9 := OParameters {| obj := obj c;
                                    params := params c ++
                                              prefixed (Some "t") (params c2) |}]>
                (objs g) ∧
    next_id h' = next_id g ∧ updates h' = updates g ∧ warned h' = warned g.
Proof.
  intros g c c2.
  refine (register_container_appends g 9 1 c c2 (Some "t") _ _ _ _ _).
  - vm_compute. reflexivity.
  - vm_compute. reflexivity.
  - discriminate.
  - apply (bool_decide_unpack _). vm_compute. exact I.
  - apply (bool_decide_unpack _). vm_compute. exact I.
Defined.


Lemma Parameter_set_value_decides_witness :
  let h := (run three_leaves).2 in
  (Parameter_set_value 5 [Np.nan] false h).1 = Return ().
Proof.
  intros h.
  refine (match Parameter_set_value_decides h 5 _ (scalar 3) [Np.nan] _ _ _
          with conj Hrun Hnan => _ end).
  - vm_compute. reflexivity.
  - vm_compute. reflexivity.
  - left. reflexivity.
  - rewrite Hrun. rewrite decide_True; [reflexivity|].
    apply Hnan. repeat constructor.
Defined.

Lemma blocks_partition_witness :
  let h := (run three_leaves_tagged).2 in
  let info := [(0%Z, 2); (1%Z, 1); (0%Z, 3)] in
  ∃ groups,
    Parameters_blocks 1 h = (Return groups, h) ∧
    Parameters_size 1 h = (Return (sum_list info.*2), h) ∧
    concat groups ≡ₚ seq 0 (sum_list info.*2) ∧
    NoDup (concat groups).
Proof.
  intros h info.
  refine (blocks_partition h 1 _ info _ _).
  - vm_compute. reflexivity.
  - vm_compute. reflexivity.
Defined.

Lemma block_setter_getter_witness :
  let h := (run three_leaves).2 in
  ∃ h', Parameters_set_block 1 (inr [5; 6; 7]%Z) h = (Return (), h') ∧
        Parameters_block 1 h' = (Return [5; 6; 7]%Z, h').
Proof.
  intros h.
  refine (match proj1 (block_setter_getter h 1
                         {| obj := 0; params := [("a", 3); ("b", 5); ("c", 7)] |}
                         _ _ _ _) [5; 6; 7]%Z _
          with ex_intro _ h' Hpost => _ end).
  - vm_compute. reflexivity.
  - vm_compute. reflexivity.
  - apply (bool_decide_unpack _). vm_compute. exact I.
  - reflexivity.
  - exists h'. destruct Hpost as (Hset & Hget & _). by split.
Defined.

Lemma set_value_then_get_value_witness :
  let h := (run three_leaves).2 in
  let theta := Np.of_Z <$> [7; 8; 1; 9; 9; 9]%Z in
  let h' :=
    (Parameters_set_value 1 (Np.Ndarray [length theta] theta) false h).2 in
  Parameters_get_value 1 false h' = (Return theta, h').
Proof.
  intros h theta h'.
  refine (set_value_then_get_value h h' 1 _ _ theta _ _ _ _).
  - vm_compute. reflexivity.
  - vm_compute. reflexivity.
  - apply (bool_decide_unpack _). vm_compute. exact I.
  - vm_compute. reflexivity.
Defined.


Lemma get_value_within_get_bounds_witness :
  let h := (run three_leaves).2 in
  ∃ rows v,
    Parameters_get_bounds 1 false h = (Return rows, h) ∧
    Parameters_get_value 1 false h = (Return v, h) ∧
    Parameters_size 1 h = (Return (length v), h) ∧
    Forall2 within rows v.
Proof.
  intros h.
  refine (get_value_within_get_bounds h 1
            {| obj := 0; params := [("a", 3); ("b", 5); ("c", 7)] |} _ _).
  - vm_compute. reflexivity.
  - apply Forall_cons_2; [(unfold leaf_inv; do 3 eexists;
       split; [vm_compute; reflexivity|];
       split; [vm_compute; reflexivity|];
       split; [vm_compute; reflexivity|];
       split; apply (bool_decide_unpack _); vm_compute; exact I)|].
    apply Forall_cons_2; [(unfold leaf_inv; do 3 eexists;
       split; [vm_compute; reflexivity|];
       split; [vm_compute; reflexivity|];
       split; [vm_compute; reflexivity|];
       split; apply (bool_decide_unpack _); vm_compute; exact I)|].
    apply Forall_cons_2; [(unfold leaf_inv; do 3 eexists;
       split; [vm_compute; reflexivity|];
       split; [vm_compute; reflexivity|];
       split; [vm_compute; reflexivity|];
       split; apply (bool_decide_unpack _); vm_compute; exact I)|].
    apply Forall_nil_2.
Defined.
